(** * Compliance-aware content generation: the rule engine and the orchestrator

    A shallow embedding of [cpg_app.py]: the compliance rule catalogue and
    its regular expressions, [check_compliance], [get_compliance_score],
    [strip_json_fence], [generate_for_channel] and the generation branch of
    [main], with the properties of the design document proved about them.

    Text is a [string] whose characters are read as the code points 0..255;
    the character tables below are those of Python's [str] on that range. *)

From Stdlib Require Import List Bool Arith Lia ZArith String Ascii.
From Stdlib Require Import Permutation Sorted OrdersEx DecimalString RelationClasses.
Import ListNotations.
Local Open Scope string_scope.
Local Open Scope list_scope.
Local Open Scope nat_scope.

Infix "+++" := String.append (right associativity, at level 60).

Set Implicit Arguments.
Set Warnings "-register-all".

(* ================================================================== *)
(** * Characters *)

Module Chars.

Definition code (c : ascii) : nat := nat_of_ascii c.

Definition between (lo hi : nat) (c : ascii) : bool :=
  (lo <=? code c) && (code c <=? hi).

(** [str.isalnum() or c == '_']: what the pattern [\w] and hence [\b]
    mean for a [str] pattern. *)
Definition is_word (c : ascii) : bool :=
  between 48 57 c || between 65 90 c || between 95 95 c || between 97 122 c
  || between 170 170 c || between 178 179 c || between 181 181 c
  || between 185 186 c || between 188 190 c || between 192 214 c
  || between 216 246 c || between 248 255 c.

(** [str.lower()] on one character. *)
Definition lower (c : ascii) : ascii :=
  if between 65 90 c || between 192 214 c || between 216 222 c
  then ascii_of_nat (code c + 32) else c.

(** [str.upper()] on one character of the 7-bit range, which is all the
    catalogue's severities contain. *)
Definition upper (c : ascii) : ascii :=
  if between 97 122 c then ascii_of_nat (code c - 32) else c.

(** [str.isspace()]. *)
Definition is_space (c : ascii) : bool :=
  between 9 13 c || between 28 32 c || between 133 133 c || between 160 160 c.

(** Two characters are equal under [re.IGNORECASE]. *)
Definition ci_eqb (x c : ascii) : bool := Ascii.eqb (lower x) (lower c).

End Chars.

(* ================================================================== *)
(** * Regular expressions: the fragment of [re] the catalogue uses *)

Module Re.

Inductive regex : Type :=
| Eps
| Chr (ic : bool) (c : ascii)
| Cls (ic : bool) (cs : list ascii)
| Opt (r : regex)
| Seq (r1 r2 : regex)
| Alt (r1 r2 : regex)
| WordB
| Group (r : regex).

Definition mkseq (atoms : list regex) : regex := fold_right Seq Eps atoms.

Fixpoint mkalt (first : regex) (others : list regex) : regex :=
  match others with
  | [] => first
  | r :: rs => Alt first (mkalt r rs)
  end.

(** ** [re.compile]

    The pattern is read left to right.  [alts] holds the finished branches
    of the alternation being read (latest first), [cur] the atoms of its
    current branch (latest first), [outer] the saved state of the top level
    while a group is open, [cls] the members of an open [[...]], [esc]
    whether a backslash was just read; [ic] is the flag [re.IGNORECASE].
    Syntax outside the fragment (a second group, ranges, other quantifiers
    and escapes) is refused. *)
Record pstate : Type := mkP {
  alts : list regex;
  cur : list regex;
  outer : option (list regex * list regex);
  cls : option (list ascii);
  esc : bool
}.

Definition p0 : pstate := mkP [] [] None None false.

Definition close_alt (alts cur : list regex) : regex :=
  match rev (mkseq (rev cur) :: alts) with
  | [] => Eps
  | r :: rs => mkalt r rs
  end.

Definition push (a : regex) (p : pstate) : pstate :=
  mkP (alts p) (a :: cur p) (outer p) (cls p) (esc p).

Definition is_meta (c : ascii) : bool :=
  existsb (Ascii.eqb c) (list_ascii_of_string ".*+^${}").

Definition pstep (ic : bool) (p : pstate) (c : ascii) : option pstate :=
  if esc p then
    if Ascii.eqb c "b" then Some (mkP (alts p) (WordB :: cur p) (outer p) None false)
    else None
  else match cls p with
  | Some members =>
      if Ascii.eqb c "]" then
        Some (mkP (alts p) (Cls ic (rev members) :: cur p) (outer p) None false)
      else if Ascii.eqb c "\" then None
      else if Ascii.eqb c "^" then None
      else Some (mkP (alts p) (cur p) (outer p) (Some (c :: members)) false)
  | None =>
      if Ascii.eqb c "\" then Some (mkP (alts p) (cur p) (outer p) None true)
      else if Ascii.eqb c "[" then Some (mkP (alts p) (cur p) (outer p) (Some []) false)
      else if Ascii.eqb c "(" then
        match outer p with
        | None => Some (mkP [] [] (Some (alts p, cur p)) None false)
        | Some _ => None
        end
      else if Ascii.eqb c ")" then
        match outer p with
        | Some (oalts, ocur) =>
            Some (mkP oalts (Group (close_alt (alts p) (cur p)) :: ocur) None None false)
        | None => None
        end
      else if Ascii.eqb c "|" then
        Some (mkP (mkseq (rev (cur p)) :: alts p) [] (outer p) None false)
      else if Ascii.eqb c "?" then
        match cur p with
        | Opt _ :: _ => None
        | WordB :: _ => None
        | a :: rest => Some (mkP (alts p) (Opt a :: rest) (outer p) None false)
        | [] => None
        end
      else if is_meta c then None
      else Some (push (Chr ic c) p)
  end.

Fixpoint prun (ic : bool) (p : pstate) (s : list ascii) : option pstate :=
  match s with
  | [] => Some p
  | c :: s' => match pstep ic p c with
               | Some p' => prun ic p' s'
               | None => None
               end
  end.

(** A class with a [-] strictly inside would be a range. *)
Fixpoint no_range (r : regex) : bool :=
  match r with
  | Cls _ cs => negb (existsb (Ascii.eqb "-") (removelast (tl cs)))
  | Opt a | Group a => no_range a
  | Seq a b | Alt a b => no_range a && no_range b
  | _ => true
  end.

Fixpoint group_count (r : regex) : nat :=
  match r with
  | Group a => S (group_count a)
  | Opt a => group_count a
  | Seq a b | Alt a b => group_count a + group_count b
  | _ => 0
  end.

Definition compile (pattern : string) (ignorecase : bool) : option regex :=
  match prun ignorecase p0 (list_ascii_of_string pattern) with
  | Some p =>
      match outer p, cls p, esc p with
      | None, None, false =>
          let r := close_alt (alts p) (cur p) in
          if no_range r && (group_count r <=? 1) then Some r else None
      | _, _, _ => None
      end
  | None => None
  end.

(** ** Matching

    A backtracking matcher in continuation-passing style, as [sre] runs a
    pattern: branches of an alternation in order, an optional item first
    with the item and then without, the first complete success wins.
    [i] is the position in the text [t]; [cap] is the span of group 1. *)
Definition span : Type := (nat * nat)%type.
Definition mresult : Type := (nat * option span)%type.

Definition word_at (t : list ascii) (i : nat) : bool :=
  match nth_error t i with
  | Some c => Chars.is_word c
  | None => false
  end.

Definition word_before (t : list ascii) (i : nat) : bool :=
  match i with
  | O => false
  | S j => word_at t j
  end.

(** [\b]: exactly one of the two neighbours is a word character. *)
Definition at_boundary (t : list ascii) (i : nat) : bool :=
  xorb (word_before t i) (word_at t i).

(** A text character against a pattern character. *)
Definition char_eqb (ic : bool) (x c : ascii) : bool :=
  if ic then Chars.ci_eqb x c else Ascii.eqb x c.

Fixpoint rmatch (r : regex) (t : list ascii) (i : nat) (cap : option span)
    (k : nat -> option span -> option mresult) : option mresult :=
  match r with
  | Eps => k i cap
  | Chr ic c =>
      match nth_error t i with
      | Some x => if char_eqb ic x c then k (S i) cap else None
      | None => None
      end
  | Cls ic cs =>
      match nth_error t i with
      | Some x => if existsb (char_eqb ic x) cs then k (S i) cap else None
      | None => None
      end
  | Opt a =>
      match rmatch a t i cap k with
      | Some res => Some res
      | None => k i cap
      end
  | Seq a b => rmatch a t i cap (fun j cap' => rmatch b t j cap' k)
  | Alt a b =>
      match rmatch a t i cap k with
      | Some res => Some res
      | None => rmatch b t i cap k
      end
  | WordB => if at_boundary t i then k i cap else None
  | Group a => rmatch a t i cap (fun j _ => k j (Some (i, j)))
  end.

(** The end of a match attempt begun at [s]: with [must_advance] an empty
    match is refused and the matcher backtracks. *)
Definition accept (s : nat) (must_advance : bool) : nat -> option span -> option mresult :=
  fun j cap => if must_advance && (j =? s) then None else Some (j, cap).

Definition match_at (r : regex) (t : list ascii) (s : nat) (must_advance : bool)
  : option mresult :=
  rmatch r t s None (accept s must_advance).

(** [sre_search]: the first start position from [pos] on, up to and
    including the end of the text, at which the pattern matches;
    [must_advance] holds for the first attempt only.  [n] is the number of
    start positions left after [pos]. *)
Fixpoint search (r : regex) (t : list ascii) (n pos : nat) (must_advance : bool)
  : option (nat * mresult) :=
  match match_at r t pos must_advance with
  | Some res => Some (pos, res)
  | None =>
      match n with
      | O => None
      | S n' => search r t n' (S pos) false
      end
  end.

(** The loop of [findall] and [finditer]: the next search starts where the
    last match ended, and must advance when that match was empty. *)
Fixpoint finditer_from (r : regex) (t : list ascii) (fuel pos : nat) (must_advance : bool)
  : list (nat * mresult) :=
  match fuel with
  | O => []
  | S fuel' =>
      if List.length t <? pos then []
      else match search r t (List.length t - pos) pos must_advance with
           | None => []
           | Some (s, (e, cap)) =>
               (s, (e, cap)) :: finditer_from r t fuel' e (e =? s)
           end
  end.

Definition finditer (r : regex) (t : list ascii) : list (nat * mresult) :=
  finditer_from r t (2 * List.length t + 3) 0 false.

Fixpoint has_group (r : regex) : bool :=
  match r with
  | Group _ => true
  | Opt a => has_group a
  | Seq a b | Alt a b => has_group a || has_group b
  | _ => false
  end.

Definition slice (t : list ascii) (a b : nat) : string :=
  string_of_list_ascii (firstn (b - a) (skipn a t)).

(** What [findall] reports for one match: group 1 when the pattern has a
    group (the empty string when the group took no part), the whole match
    otherwise. *)
Definition item (r : regex) (t : list ascii) (m : nat * mresult) : string :=
  let '(s, (e, cap)) := m in
  if has_group r then
    match cap with
    | Some (a, b) => slice t a b
    | None => ""
    end
  else slice t s e.

Definition findall (r : regex) (text : string) : list string :=
  let t := list_ascii_of_string text in
  map (item r t) (finditer r t).

(** ** What a pattern can match

    [matches t r i j]: the pattern [r] can consume the text [t] from
    position [i] to position [j].  The matcher only ever reports such
    spans. *)
Inductive matches (t : list ascii) : regex -> nat -> nat -> Prop :=
| M_Eps : forall i, matches t Eps i i
| M_Chr : forall ic c i x,
    nth_error t i = Some x -> char_eqb ic x c = true -> matches t (Chr ic c) i (S i)
| M_Cls : forall ic cs i x,
    nth_error t i = Some x -> existsb (char_eqb ic x) cs = true ->
    matches t (Cls ic cs) i (S i)
| M_Opt_some : forall a i j, matches t a i j -> matches t (Opt a) i j
| M_Opt_none : forall a i, matches t (Opt a) i i
| M_Seq : forall a b i j k,
    matches t a i j -> matches t b j k -> matches t (Seq a b) i k
| M_Alt_l : forall a b i j, matches t a i j -> matches t (Alt a b) i j
| M_Alt_r : forall a b i j, matches t b i j -> matches t (Alt a b) i j
| M_WordB : forall i, at_boundary t i = true -> matches t WordB i i
| M_Group : forall a i j, matches t a i j -> matches t (Group a) i j.

(** The shape of every pattern of the catalogue: [\b(...)\b]. *)
Definition anchored (r : regex) : bool :=
  match r with
  | Seq WordB (Seq (Group _) (Seq WordB Eps)) => true
  | _ => false
  end.

Definition literal (ic : bool) (word : string) : regex :=
  mkseq (map (Chr ic) (list_ascii_of_string word)).

Definition lower_string (t : list ascii) : string :=
  string_of_list_ascii (map Chars.lower t).

End Re.

(* ================================================================== *)
(** * Python values *)

Module Py.

(** A [dict] with [str] keys, in insertion order and without duplicate
    keys. *)
Definition dict (V : Type) : Type := list (string * V).

Fixpoint dict_get {V : Type} (d : dict V) (k : string) : option V :=
  match d with
  | [] => None
  | (k', v) :: d' => if String.eqb k' k then Some v else dict_get d' k
  end.

(** [d[k] = v]: an existing key keeps its place, a new one goes last. *)
Fixpoint dict_set {V : Type} (d : dict V) (k : string) (v : V) : dict V :=
  match d with
  | [] => [(k, v)]
  | (k', v') :: d' =>
      if String.eqb k' k then (k', v) :: d' else (k', v') :: dict_set d' k v
  end.

Definition keys {V : Type} (d : dict V) : list string := map fst d.

(** [d.get(k, default)]. *)
Definition dict_get_default {V : Type} (d : dict V) (k : string) (default : V) : V :=
  match dict_get d k with
  | Some v => v
  | None => default
  end.

(** What [json.loads] builds, and what the program stores into it;
    numbers are the integers. *)
Inductive pyval : Type :=
| PNone
| PBool (b : bool)
| PInt (z : Z)
| PStr (s : string)
| PList (l : list pyval)
| PDict (d : list (string * pyval)).

Definition is_list (v : pyval) : bool :=
  match v with PList _ => true | _ => false end.

Definition is_dict (v : pyval) : bool :=
  match v with PDict _ => true | _ => false end.

Inductive exn : Type :=
| KeyError (key : pyval)
| IndexError
| TypeError
| AttributeError
| JSONDecodeError
| RuntimeError (msg : string)
| OtherError (msg : string).

Inductive result (A : Type) : Type :=
| Ok (a : A)
| Raise (e : exn).
Arguments Ok {A} a.
Arguments Raise {A} e.

Definition bind {A B : Type} (m : result A) (f : A -> result B) : result B :=
  match m with
  | Ok a => f a
  | Raise e => Raise e
  end.

(** The part of the interpreter and its library that the program calls
    and that is not modelled further:
    - [set_iter l] is the order in which [set(l)] is iterated, which
      depends on the hash seed of the process;
    - [json_loads] is [json.loads], [None] standing for [JSONDecodeError];
    - [py_repr] is [str()] of a list or a dict inside an f-string. *)
Record runtime : Type := mkRuntime {
  set_iter : list string -> list string;
  json_loads : string -> option pyval;
  py_repr : pyval -> string
}.

(** [set(l)] holds the distinct members of [l], each once. *)
Definition set_ok (rt : runtime) : Prop :=
  forall l : list string, Permutation (set_iter rt l) (nodup string_dec l).

Definition str_of_nat (n : nat) : string := NilZero.string_of_uint (Nat.to_uint n).

Definition str_of_Z (z : Z) : string := NilZero.string_of_int (Z.to_int z).

(** [str(v)], as an f-string field formats [v]. *)
Definition py_str (rt : runtime) (v : pyval) : string :=
  match v with
  | PStr s => s
  | PNone => "None"
  | PBool true => "True"
  | PBool false => "False"
  | PInt z => str_of_Z z
  | PList _ | PDict _ => py_repr rt v
  end.

(** [sep.join(parts)]. *)
Definition join (sep : string) (parts : list string) : string := String.concat sep parts.

Definition map_string (f : ascii -> ascii) (s : string) : string :=
  string_of_list_ascii (map f (list_ascii_of_string s)).

Definition str_upper (s : string) : string := map_string Chars.upper s.

(** [sorted] on strings: ascending by code point. *)
Fixpoint insert_sorted (x : string) (l : list string) : list string :=
  match l with
  | [] => [x]
  | y :: l' =>
      match String_as_OT.compare x y with
      | Gt => y :: insert_sorted x l'
      | _ => x :: l
      end
  end.

Definition sorted (l : list string) : list string := fold_right insert_sorted [] l.

End Py.

(* ================================================================== *)
(** * The rule catalogue *)

Module Catalog.
Import Py.

Record rule : Type := mkRule {
  rule_name : string;
  rule_severity : string;
  rule_regex : Re.regex
}.

Definition raw_rules : dict (list (string * string * string)) :=
  [ ("Skincare",
     [ ("No disease treatment claims", "critical", "\b(cure|treat|heal|remedy)\b");
       ("No guaranteed results claims", "critical", "\b(guaranteed|100%|always works|permanent)\b");
       ("Must include 'results may vary' for efficacy claims", "warning", "\b(clinically proven|dermatologist tested)\b");
       ("No comparative superiority without evidence", "warning", "\b(best|#1|number one|superior to)\b");
       ("FDA disclaimer required for structure/function claims", "info", "\b(supports|promotes|helps maintain)\b") ]);
    ("Food & Beverage",
     [ ("No disease prevention claims", "critical", "\b(prevents?|cures?|treats?|fights? disease)\b");
       ("No misleading health claims", "critical", "\b(superfood|miracle|magic)\b");
       ("Allergen info should be accessible", "warning", "\b(contains|may contain|allergen)\b");
       ("Nutritional claims must be substantiated", "warning", "\b(high protein|low sugar|zero calorie|no sugar)\b");
       ("Organic claims require certification", "info", "\b(organic|certified organic)\b") ]);
    ("Household",
     [ ("No absolute safety claims", "critical", "\b(100% safe|completely safe|totally harmless)\b");
       ("No 'chemical-free' claims (misleading)", "warning", "\b(chemical[ -]free|no chemicals)\b");
       ("EPA certification must be accurate", "critical", "\b(EPA certified|EPA approved)\b");
       ("Efficacy claims need qualification", "warning", "\b(kills 99|eliminates all|destroys)\b") ]);
    ("Haircare",
     [ ("No permanent change claims without evidence", "critical", "\b(permanent|forever|irreversible)\b");
       ("No medical claims", "critical", "\b(treats? hair loss|cures? dandruff|medical)\b");
       ("Time-based claims need substantiation", "warning", "\b(instant|immediate|overnight)\b") ]);
    ("Baby Care",
     [ ("No absolute safety claims", "critical", "\b(100% safe|completely safe|zero risk)\b");
       ("Medical endorsement must be verified", "critical", "\b(doctor recommended|clinically proven|medically approved)\b");
       ("Age appropriateness must be specified", "warning", "\b(all ages|any age|newborn)\b");
       ("Ingredient transparency required", "info", "\b(natural|organic|pure)\b") ]) ].

(** The list comprehension of [build_rules]; a pattern that does not
    compile stops the program at start-up. *)
Fixpoint compile_rows (rows : list (string * string * string)) : option (list rule) :=
  match rows with
  | [] => Some []
  | (name, severity, pattern) :: rows' =>
      match Re.compile pattern true, compile_rows rows' with
      | Some r, Some rs => Some (mkRule name severity r :: rs)
      | _, _ => None
      end
  end.

Fixpoint build_rules_from (raw : dict (list (string * string * string)))
    (out : dict (list rule)) : option (dict (list rule)) :=
  match raw with
  | [] => Some out
  | (category, rows) :: raw' =>
      match compile_rows rows with
      | Some rs => build_rules_from raw' (dict_set out category rs)
      | None => None
      end
  end.

Definition build_rules : option (dict (list rule)) := build_rules_from raw_rules [].

Definition COMPLIANCE_RULES : dict (list rule) :=
  Eval vm_compute in match build_rules with Some out => out | None => [] end.

(** [COMPLIANCE_RULES.get(category, [])]. *)
Definition rules_for (category : string) : list rule :=
  dict_get_default COMPLIANCE_RULES category [].

End Catalog.

(* ================================================================== *)
(** * The compliance evaluator *)

Module Evaluator.
Import Py Catalog.

Record issue : Type := mkIssue {
  issue_rule : string;
  issue_severity : string;
  issue_matches : list string
}.

Section WithRuntime.
Variable rt : runtime.

(** The body of the loop of [check_compliance] for one rule. *)
Definition check_rule (text : string) (r : rule) : list issue :=
  match Re.findall (rule_regex r) text with
  | [] => []
  | matches =>
      let unique_matches := sorted (set_iter rt matches) in
      [mkIssue (rule_name r) (rule_severity r) unique_matches]
  end.

Fixpoint check_rules (text : string) (rules : list rule) (issues : list issue)
  : list issue :=
  match rules with
  | [] => issues
  | r :: rules' => check_rules text rules' (issues ++ check_rule text r)
  end.

Definition check_compliance (text category : string) : list issue :=
  check_rules text (rules_for category) [].

End WithRuntime.

(** The two halves of the loop body, named for the statements below:
    whether a rule has a match in the text, and the issue it then emits. *)
Definition fires (text : string) (r : rule) : bool :=
  match Re.findall (rule_regex r) text with
  | [] => false
  | _ :: _ => true
  end.

Definition issue_of (rt : runtime) (text : string) (r : rule) : issue :=
  mkIssue (rule_name r) (rule_severity r)
          (sorted (set_iter rt (Re.findall (rule_regex r) text))).

Definition has_severity (sev : string) (issues : list issue) : Prop :=
  exists i, In i issues /\ issue_severity i = sev.

Definition in_set (x : string) (l : list string) : bool := existsb (String.eqb x) l.

Definition get_compliance_score (issues : list issue) : string :=
  let severities := map issue_severity issues in
  if in_set "critical" severities then "Needs Review"
  else if in_set "warning" severities then "Caution"
  else if in_set "info" severities then "Minor Notes"
  else "Compliant".

End Evaluator.

(* ================================================================== *)
(** * Reference data *)

Module Data.
Import Py.

Record product : Type := mkProduct {
  p_id : string;
  p_name : string;
  p_category : string;
  p_brand : string;
  p_features : list string;
  p_benefits : list string;
  p_usage : string;
  p_targetAudience : string;
  p_pricePoint : string;
  p_usp : string
}.

Record brand_guide : Type := mkBrand {
  b_tone : string;
  b_voiceTraits : list string;
  b_doWords : list string;
  b_dontWords : list string;
  b_tagline : string
}.

Record channel : Type := mkChannel {
  c_id : string;
  c_name : string;
  c_maxLength : Z;
  c_format : string
}.

Definition PRODUCT_DATABASE : list product :=
  [ mkProduct "p1" "PureGlow Vitamin C Serum" "Skincare" "PureGlow Naturals"
      ["30% Vitamin C"; "Hyaluronic Acid"; "Ferulic Acid"; "Vegan"; "Cruelty-free"]
      ["Brightens skin tone"; "Reduces dark spots"; "Boosts collagen production"; "Deep hydration"]
      "Apply 3-4 drops to clean face morning and evening. Follow with moisturizer and SPF."
      "Women 25-45, skincare enthusiasts, clean beauty advocates"
      "$34.99"
      "Clinical-grade Vitamin C in a clean, sustainable formula";
    mkProduct "p2" "FreshBite Protein Crunch Bars" "Food & Beverage" "FreshBite Co."
      ["20g protein"; "Gluten-free"; "No artificial sweeteners"; "Non-GMO"; "5g fiber"]
      ["Sustained energy"; "Muscle recovery support"; "Guilt-free snacking"; "Keeps you full longer"]
      "Enjoy as a post-workout snack or mid-day energy boost. Best served chilled."
      "Fitness enthusiasts 18-40, health-conscious consumers, busy professionals"
      "$2.99/bar"
      "Real food ingredients with macro-friendly nutrition";
    mkProduct "p3" "EcoClean All-Purpose Spray" "Household" "EcoClean Home"
      ["Plant-based formula"; "Biodegradable"; "No harsh chemicals"; "Recyclable packaging"; "EPA Safer Choice certified"]
      ["Cuts grease effectively"; "Safe around kids and pets"; "Fresh lavender scent"; "Streak-free clean"]
      "Spray directly on surfaces. Wipe with cloth. No rinsing needed."
      "Eco-conscious families, parents with young children, sustainability advocates"
      "$6.49"
      "Powerful cleaning without compromising your family's health or the planet";
    mkProduct "p4" "ZenBrew Adaptogenic Coffee" "Food & Beverage" "ZenBrew"
      ["Organic Arabica"; "Lion's Mane mushroom"; "Ashwagandha"; "L-Theanine"; "Medium roast"]
      ["Calm focus without jitters"; "Enhanced cognitive function"; "Stress reduction"; "Smooth, rich flavor"]
      "Brew 2 tbsp per 6oz water. French press or drip recommended. Enjoy hot or iced."
      "Wellness-focused professionals 25-50, biohackers, mindful consumers"
      "$24.99/bag"
      "Where ancient adaptogens meet artisan coffee";
    mkProduct "p5" "LuxeLocks Keratin Repair Mask" "Haircare" "LuxeLocks Paris"
      ["Keratin complex"; "Argan oil"; "Silk proteins"; "Color-safe"; "Sulfate-free"]
      ["Repairs damage in one use"; "72-hour frizz control"; "Salon-quality results at home"; "Restores shine and elasticity"]
      "Apply generously to damp hair. Leave for 5-10 minutes. Rinse thoroughly. Use weekly."
      "Women 20-50 with color-treated or damaged hair, salon quality seekers"
      "$18.99"
      "Parisian salon science in every jar";
    mkProduct "p6" "TinyTots Organic Baby Wipes" "Baby Care" "TinyTots"
      ["99% water"; "Organic cotton"; "Hypoallergenic"; "Fragrance-free"; "Compostable"]
      ["Gentle on sensitive skin"; "No irritation or rashes"; "Eco-friendly disposal"; "Pediatrician recommended"]
      "Gently wipe and dispose. Safe for face, hands, and diaper area."
      "New parents, eco-conscious families, parents of babies with sensitive skin"
      "$8.99/80ct"
      "Pure enough for the most precious skin on earth" ].

Definition BRAND_STYLE_GUIDES : dict brand_guide :=
  [ ("PureGlow Naturals",
     mkBrand "Sophisticated, science-backed yet approachable, empowering"
       ["Clean"; "Confident"; "Educational"; "Aspirational"]
       ["radiance"; "transform"; "clinical-grade"; "pure"; "glow"; "reveal"]
       ["cheap"; "miracle"; "cure"; "guaranteed results"; "anti-aging"]
       "Science Meets Nature");
    ("FreshBite Co.",
     mkBrand "Energetic, fun, motivational, straightforward"
       ["Bold"; "Active"; "Real"; "Community-driven"]
       ["fuel"; "crush it"; "real food"; "power"; "clean"; "strong"]
       ["diet"; "low-cal"; "skinny"; "cheat meal"; "guilt"]
       "Fuel Your Fire");
    ("EcoClean Home",
     mkBrand "Warm, trustworthy, eco-conscious, family-friendly"
       ["Caring"; "Transparent"; "Sustainable"; "Reliable"]
       ["protect"; "pure"; "planet-friendly"; "safe"; "naturally"; "home"]
       ["toxic"; "chemical-free (misleading)"; "100% safe"; "kills all"]
       "Clean Home, Clean Planet");
    ("ZenBrew",
     mkBrand "Mindful, premium, intellectual, calm confidence"
       ["Wise"; "Serene"; "Elevated"; "Intentional"]
       ["ritual"; "clarity"; "flow state"; "craft"; "mindful"; "elevate"]
       ["wired"; "buzzed"; "caffeine hit"; "basic"; "average"]
       "Clarity in Every Cup");
    ("LuxeLocks Paris",
     mkBrand "Luxurious, French-inspired elegance, expert authority"
       ["Glamorous"; "Expert"; "Indulgent"; "Confident"]
       ["luxe"; "transform"; "salon-grade"; "nourish"; "silk"; "radiant"]
       ["cheap"; "basic"; "quick fix"; "drugstore"; "no-fuss"]
       "L'Art du Cheveu");
    ("TinyTots",
     mkBrand "Tender, reassuring, pure, parent-to-parent"
       ["Gentle"; "Trustworthy"; "Pure"; "Loving"]
       ["gentle"; "pure"; "precious"; "nurture"; "safe"; "soft"]
       ["tough"; "strong"; "powerful"; "aggressive"; "extreme"]
       "Pure Love, Pure Care") ].

Definition CHANNELS : list channel :=
  [ mkChannel "instagram" "Instagram Post" 2200 "Visual-first caption with hashtags";
    mkChannel "facebook" "Facebook Ad" 1000 "Engaging ad copy with CTA";
    mkChannel "email" "Email Campaign" 3000 "Subject line + body with sections";
    mkChannel "twitter" "X/Twitter Post" 280 "Concise, punchy with hashtags";
    mkChannel "product_page" "Product Page" 5000 "SEO-optimized product description";
    mkChannel "print_ad" "Print Ad" 500 "Headline + body + tagline";
    mkChannel "tvc_script" "TV/Video Script" 3000 "30-second script with visuals";
    mkChannel "sms" "SMS/WhatsApp" 160 "Short promotional message" ].

End Data.

(* ================================================================== *)
(** * The generation client *)

Module Client.
Import Py Catalog Data.

Definition nl : string := String (ascii_of_nat 10) EmptyString.
Definition dq : string := String (ascii_of_nat 34) EmptyString.
Definition quoted (s : string) : string := dq +++ s +++ dq.

(** ** [strip_json_fence] *)

Definition fence_pattern : string := "```json|```".

Definition fence_re : Re.regex :=
  Eval vm_compute in
    match Re.compile fence_pattern false with Some r => r | None => Re.Eps end.

(** [re.sub(pattern, "", text)]: the text between the matches. *)
Fixpoint between_matches (t : list ascii) (pos : nat) (ms : list (nat * Re.mresult))
  : list ascii :=
  match ms with
  | [] => skipn pos t
  | (s, (e, _)) :: ms' => firstn (s - pos) (skipn pos t) ++ between_matches t e ms'
  end.

Definition sub_empty (r : Re.regex) (text : string) : string :=
  let t := list_ascii_of_string text in
  string_of_list_ascii (between_matches t 0 (Re.finditer r t)).

Fixpoint lstrip (t : list ascii) : list ascii :=
  match t with
  | c :: t' => if Chars.is_space c then lstrip t' else t
  | [] => []
  end.

(** [str.strip()]. *)
Definition strip (s : string) : string :=
  string_of_list_ascii (rev (lstrip (rev (lstrip (list_ascii_of_string s))))).

Definition strip_json_fence (text : string) : string :=
  strip (sub_empty fence_re text).

(** ** The transport *)

Record payload : Type := mkPayload {
  pl_model : string;
  pl_max_tokens : Z;
  pl_system : string;
  pl_user : string
}.

(** What the network does with one request: a response body, an HTTP
    error with its status and body, a [URLError] with its reason, or any
    other exception of the transport (a read time-out, say). *)
Inductive net_outcome : Type :=
| NetBody (body : string)
| NetHTTPError (code : Z) (body : string)
| NetURLError (reason : string)
| NetOther (e : exn).

(** The process environment and the service: [api_key] is
    [os.getenv("OPENAI_API_KEY", "")], [net n] is what happens to the
    request number [n], [sent] holds the requests made so far. *)
Record world : Type := mkWorld {
  api_key : string;
  net : nat -> net_outcome;
  sent : list payload
}.

Section WithRuntime.
Variable rt : runtime.

(** [parsed.get("error", {}).get("message", body)] in the [HTTPError]
    handler; an [AttributeError] there leaves the handler. *)
Definition http_error_message (body : string) : result pyval :=
  match json_loads rt body with
  | None => Ok (PStr body)
  | Some (PDict d) =>
      match dict_get_default d "error" (PDict []) with
      | PDict e => Ok (dict_get_default e "message" (PStr body))
      | _ => Raise AttributeError
      end
  | Some _ => Raise AttributeError
  end.

Definition openai_chat_completion (pl : payload) (w : world) : result pyval * world :=
  if String.eqb (strip (api_key w)) "" then
    (Raise (RuntimeError "OPENAI_API_KEY is missing. Add it in .env or your shell environment."), w)
  else
    let w' := mkWorld (api_key w) (net w) (sent w ++ [pl]) in
    match net w (List.length (sent w)) with
    | NetBody body =>
        match json_loads rt body with
        | Some data => (Ok data, w')
        | None => (Raise JSONDecodeError, w')
        end
    | NetHTTPError code body =>
        match http_error_message body with
        | Ok message =>
            (Raise (RuntimeError ("OpenAI request failed (" +++ str_of_Z code +++ "): "
                                  +++ py_str rt message)), w')
        | Raise e => (Raise e, w')
        end
    | NetURLError reason =>
        (Raise (RuntimeError ("Network error while calling OpenAI: " +++ reason)), w')
    | NetOther e => (Raise e, w')
    end.

(** ** Subscripts on reply data *)

(** [v[key]] for a [str] key. *)
Definition getitem (v : pyval) (key : string) : result pyval :=
  match v with
  | PDict d =>
      match dict_get d key with
      | Some x => Ok x
      | None => Raise (KeyError (PStr key))
      end
  | _ => Raise TypeError
  end.

(** [v[0]]. *)
Definition getitem0 (v : pyval) : result pyval :=
  match v with
  | PList (x :: _) => Ok x
  | PList [] => Raise IndexError
  | PStr (String c _) => Ok (PStr (String c EmptyString))
  | PStr EmptyString => Raise IndexError
  | PDict _ => Raise (KeyError (PInt 0))
  | _ => Raise TypeError
  end.

(** ["".join(parts)] where every part must be a [str]. *)
Fixpoint join_values (parts : list pyval) : result string :=
  match parts with
  | [] => Ok ""
  | PStr s :: parts' => bind (join_values parts') (fun rest => Ok (s +++ rest))
  | _ :: _ => Raise TypeError
  end.

(** [[item.get("text", "") for item in content if isinstance(item, dict)]]. *)
Fixpoint fragment_texts (content : list pyval) : list pyval :=
  match content with
  | [] => []
  | PDict d :: content' => dict_get_default d "text" (PStr "") :: fragment_texts content'
  | _ :: content' => fragment_texts content'
  end.

(** The reply text handed to [strip_json_fence]; [re.sub] refuses what is
    not a [str]. *)
Definition content_text (content : pyval) : result string :=
  match content with
  | PList items => join_values (fragment_texts items)
  | PStr s => Ok s
  | _ => Raise TypeError
  end.

(** Lines 352 to 356: parse the reply text and read its variants. *)
Definition parse_variants (content : string) : result (list pyval) :=
  match json_loads rt (strip_json_fence content) with
  | None => Raise JSONDecodeError
  | Some (PDict parsed) =>
      match dict_get_default parsed "variants" (PList []) with
      | PList variants => Ok variants
      | _ => Raise (RuntimeError "Model response did not include a valid 'variants' array.")
      end
  | Some _ => Raise AttributeError
  end.

(** ** The prompts *)

Definition rules_text (category_rules : list rule) : string :=
  join nl (map (fun r => "- " +++ str_upper (rule_severity r) +++ ": " +++ rule_name r)
               category_rules).

Definition system_prompt (p : product) (brand : brand_guide) (category_rules : list rule)
  : string :=
  join nl
    [ "You are an expert CPG marketing copywriter. You produce high-converting, brand-compliant marketing content.";
      "";
      "BRAND VOICE GUIDE for " +++ quoted (p_brand p) +++ ":";
      "- Tone: " +++ b_tone brand;
      "- Voice Traits: " +++ join ", " (b_voiceTraits brand);
      "- Preferred Words: " +++ join ", " (b_doWords brand);
      "- Avoid These Words: " +++ join ", " (b_dontWords brand);
      "- Brand Tagline: " +++ b_tagline brand;
      "";
      "COMPLIANCE RULES for " +++ p_category p +++ ":";
      rules_text category_rules;
      "";
      "You MUST respond ONLY with valid JSON. No markdown and no code fences.";
      "Schema:";
      "{";
      "  " +++ quoted "variants" +++ ": [";
      "    {";
      "      " +++ quoted "label" +++ ": " +++ quoted "Variant A label" +++ ",";
      "      " +++ quoted "headline" +++ ": " +++ quoted "attention-grabbing headline" +++ ",";
      "      " +++ quoted "body" +++ ": " +++ quoted "the main marketing copy" +++ ",";
      "      " +++ quoted "cta" +++ ": " +++ quoted "call to action" +++ ",";
      "      " +++ quoted "hashtags" +++ ": [" +++ quoted "tag1" +++ ", " +++ quoted "tag2" +++ "],";
      "      " +++ quoted "complianceNotes" +++ ": " +++ quoted "any compliance considerations";
      "    }";
      "  ]";
      "}" ].

Definition user_prompt (p : product) (ch : channel) (tone season : string)
    (num_variants : Z) (custom_prompt : string) : string :=
  join nl
    [ "Create " +++ str_of_Z num_variants +++ " distinct marketing content variants for:";
      "";
      "PRODUCT: " +++ p_name p;
      "CATEGORY: " +++ p_category p;
      "FEATURES: " +++ join ", " (p_features p);
      "BENEFITS: " +++ join ", " (p_benefits p);
      "USAGE: " +++ p_usage p;
      "TARGET AUDIENCE: " +++ p_targetAudience p;
      "PRICE: " +++ p_pricePoint p;
      "USP: " +++ p_usp p;
      "";
      "CHANNEL: " +++ c_name ch;
      "FORMAT: " +++ c_format ch;
      "MAX LENGTH: " +++ str_of_Z (c_maxLength ch) +++ " characters";
      "CAMPAIGN TONE: " +++ tone;
      "SEASON/OCCASION: " +++ season;
      (if String.eqb custom_prompt "" then ""
       else "ADDITIONAL DIRECTION: " +++ custom_prompt);
      "";
      "Each variant should use a different creative angle and be useful for A/B testing." ].

(** Lines 288 to 347: the request for one product and channel.  The brand
    is looked up with a subscript, the category's rules with [get]. *)
Definition build_payload (p : product) (ch : channel) (tone season : string)
    (num_variants : Z) (custom_prompt model : string) : result payload :=
  match dict_get BRAND_STYLE_GUIDES (p_brand p) with
  | None => Raise (KeyError (PStr (p_brand p)))
  | Some brand =>
      let category_rules := dict_get_default COMPLIANCE_RULES (p_category p) [] in
      Ok (mkPayload model 1200
            (system_prompt p brand category_rules)
            (user_prompt p ch tone season num_variants custom_prompt))
  end.

Definition generate_for_channel (p : product) (ch : channel) (tone season : string)
    (num_variants : Z) (custom_prompt model : string) (w : world)
  : result (list pyval) * world :=
  match build_payload p ch tone season num_variants custom_prompt model with
  | Raise e => (Raise e, w)
  | Ok pl =>
      let '(reply, w') := openai_chat_completion pl w in
      (bind reply (fun data =>
       bind (getitem data "choices") (fun choices =>
       bind (getitem0 choices) (fun choice =>
       bind (getitem choice "message") (fun message =>
       bind (getitem message "content") (fun content =>
       bind (content_text content) parse_variants))))), w')
  end.

End WithRuntime.
End Client.


(* ================================================================== *)
(** * The orchestrator: the generation branch of [main] *)

Module Orchestrator.
Import Py Catalog Evaluator Data Client.

Record channel_result : Type := mkResult {
  channel_id : string;
  channel_name : string;
  variants : list pyval
}.

(** What the page shows during a run. *)
Inductive ui_event : Type :=
| StError (msg : string)
| StErrorOf (err : exn)
| ProgressBar
| StatusWrite (msg : string)
| Progress (done total : nat)
| StatusSuccess (msg : string).

(** [{c["name"]: c for c in CHANNELS}]. *)
Definition channel_options : dict channel :=
  fold_left (fun d c => dict_set d (c_name c) c) CHANNELS [].

(** [[channel_options[name] for name in selected_channel_labels]]. *)
Fixpoint select_channels (labels : list string) : result (list channel) :=
  match labels with
  | [] => Ok []
  | name :: labels' =>
      match dict_get channel_options name with
      | None => Raise (KeyError (PStr name))
      | Some c => bind (select_channels labels') (fun cs => Ok (c :: cs))
      end
  end.

(** The issue dictionary as it is stored in a variant. *)
Definition issue_value (i : issue) : pyval :=
  PDict [ ("rule", PStr (issue_rule i));
          ("severity", PStr (issue_severity i));
          ("matches", PList (map PStr (issue_matches i))) ].

(** [f"Generating {channel['name']} ({i}/{len(selected_channels)}) ..."]. *)
Definition generating (ch : channel) (i total : nat) : string :=
  "Generating " +++ c_name ch +++ " (" +++ str_of_nat i +++ "/" +++ str_of_nat total
  +++ ") ...".

Section WithRuntime.
Variable rt : runtime.

(** [f"{v.get('headline', '')} {v.get('body', '')} {v.get('cta', '')}"]. *)
Definition variant_text (d : dict pyval) : string :=
  py_str rt (dict_get_default d "headline" (PStr "")) +++ " "
  +++ py_str rt (dict_get_default d "body" (PStr "")) +++ " "
  +++ py_str rt (dict_get_default d "cta" (PStr "")).

(** The body of [for v in variants]; only a dict has [get]. *)
Definition enrich_variant (category : string) (v : pyval) : result pyval :=
  match v with
  | PDict d =>
      let issues := check_compliance rt (variant_text d) category in
      let d1 := dict_set d "_compliance_issues" (PList (map issue_value issues)) in
      let d2 := dict_set d1 "_compliance_score" (PStr (get_compliance_score issues)) in
      Ok (PDict d2)
  | _ => Raise AttributeError
  end.

Fixpoint enrich_all (category : string) (vs : list pyval) (enriched : list pyval)
  : result (list pyval) :=
  match vs with
  | [] => Ok enriched
  | v :: vs' =>
      match enrich_variant category v with
      | Ok v' => enrich_all category vs' (enriched ++ [v'])
      | Raise e => Raise e
      end
  end.

(** The loop over [enumerate(selected_channels, start=1)] inside [try];
    [i] is the index of the head of [todo], [total] is
    [len(selected_channels)]. *)
Fixpoint channel_loop (p : product) (tone season : string) (num_variants : Z)
    (custom_prompt model : string) (total : nat)
    (todo : list channel) (i : nat)
    (results : list channel_result) (ui : list ui_event) (w : world)
  : result (list channel_result) * list ui_event * world :=
  match todo with
  | [] => (Ok results, ui, w)
  | ch :: todo' =>
      let ui1 := ui ++ [StatusWrite (generating ch i total)] in
      let '(generated, w') :=
        generate_for_channel rt p ch tone season num_variants custom_prompt model w in
      match bind generated (fun vs => enrich_all (p_category p) vs []) with
      | Raise e => (Raise e, ui1, w')
      | Ok enriched =>
          channel_loop p tone season num_variants custom_prompt model total
            todo' (S i)
            (results ++ [mkResult (c_id ch) (c_name ch) enriched])
            (ui1 ++ [Progress i total]) w'
      end
  end.

(** The page state a run can change: what was shown, the world, and
    [st.session_state.results]. *)
Record page : Type := mkPage {
  shown : list ui_event;
  the_world : world;
  session_results : list channel_result
}.

(** The body of [if generate_clicked:].  [Raise] is an exception that
    leaves [main]: the channel lookup is outside the [try]. *)
Definition main_generate (p : product) (selected_channel_labels : list string)
    (tone season : string) (num_variants : Z) (custom_prompt model : string)
    (pg : page) : result page :=
  match selected_channel_labels with
  | [] => Ok (mkPage (shown pg ++ [StError "Select at least one channel."])
                     (the_world pg) (session_results pg))
  | _ :: _ =>
      match select_channels selected_channel_labels with
      | Raise e => Raise e
      | Ok selected_channels =>
          match channel_loop p tone season num_variants custom_prompt model
                  (List.length selected_channels) selected_channels 1 []
                  (shown pg ++ [ProgressBar]) (the_world pg) with
          | (Ok results, ui, w) =>
              Ok (mkPage (ui ++ [StatusSuccess "Generation complete."]) w results)
          | (Raise err, ui, w) =>
              Ok (mkPage (ui ++ [StErrorOf err]) w (session_results pg))
          end
      end
  end.

End WithRuntime.

(** A run that went through: the last thing shown is the success line. *)
Definition completed (pg : page) : Prop :=
  exists ui, shown pg = ui ++ [StatusSuccess "Generation complete."].

End Orchestrator.

(* ================================================================== *)
(** * Properties of the matcher *)

Module ReFacts.
Import Re.

Create HintDb re.
#[local] Hint Constructors matches : re.

(** Whatever the matcher returns came from its continuation, applied at
    the end of a span the pattern can match. *)
Lemma rmatch_sound :
  forall t r i cap k res,
    rmatch r t i cap k = Some res ->
    exists j cap', matches t r i j /\ k j cap' = Some res.
Proof.
  intros t r; induction r as [| ic c | ic cs | a IHa | a IHa b IHb | a IHa b IHb | | a IHa];
    intros i cap k res H; simpl in H.
  - eauto with re.
  - destruct (nth_error t i) as [x|] eqn:Hx; [|discriminate].
    destruct (char_eqb ic x c) eqn:Hc; [|discriminate]. eauto with re.
  - destruct (nth_error t i) as [x|] eqn:Hx; [|discriminate].
    destruct (existsb (char_eqb ic x) cs) eqn:Hc; [|discriminate]. eauto with re.
  - destruct (rmatch a t i cap k) as [res'|] eqn:Ha.
    + injection H as <-. destruct (IHa _ _ _ _ Ha) as (j & cap' & Hm & Hk). eauto with re.
    + eauto with re.
  - destruct (IHa _ _ _ _ H) as (j & cap' & Hm & Hk).
    destruct (IHb _ _ _ _ Hk) as (j' & cap'' & Hm' & Hk'). eauto with re.
  - destruct (rmatch a t i cap k) as [res'|] eqn:Ha.
    + injection H as <-. destruct (IHa _ _ _ _ Ha) as (j & cap' & Hm & Hk). eauto with re.
    + destruct (IHb _ _ _ _ H) as (j & cap' & Hm & Hk). eauto with re.
  - destruct (at_boundary t i) eqn:Hb; [|discriminate]. eauto with re.
  - destruct (IHa _ _ _ _ H) as (j & cap' & Hm & Hk). exists j, (Some (i, j)). eauto with re.
Qed.

Lemma matches_forward : forall t r i j, matches t r i j -> i <= j.
Proof. induction 1; lia. Qed.

Lemma matches_in_text : forall t r i j, matches t r i j -> i <= List.length t -> j <= List.length t.
Proof.
  induction 1; intros Hi; try lia; auto.
  - assert (i < List.length t) by (apply nth_error_Some; congruence). lia.
  - assert (i < List.length t) by (apply nth_error_Some; congruence). lia.
Qed.

(** A successful attempt at [s] ends at or after [s], inside the text, and
    strictly after [s] when it had to advance. *)
Lemma match_at_span :
  forall r t s adv e cap,
    match_at r t s adv = Some (e, cap) ->
    matches t r s e /\ s <= e /\ (adv = true -> s < e).
Proof.
  intros r t s adv e cap H. unfold match_at in H.
  destruct (rmatch_sound _ _ _ _ _ H) as (j & cap' & Hm & Hk).
  unfold accept in Hk.
  destruct (adv && (j =? s)) eqn:Hadv; [discriminate|].
  injection Hk as -> ->.
  pose proof (matches_forward Hm) as Hle.
  repeat split; auto.
  intros ->. simpl in Hadv. apply Nat.eqb_neq in Hadv. lia.
Qed.

(** A pattern of the shape [\b(g)\b] matches only between two word
    boundaries, and its group is the whole match. *)
Lemma anchored_match :
  forall g t s adv e cap,
    match_at (Seq WordB (Seq (Group g) (Seq WordB Eps))) t s adv = Some (e, cap) ->
    at_boundary t s = true /\ at_boundary t e = true /\
    matches t g s e /\ cap = Some (s, e).
Proof.
  intros g t s adv e cap H. unfold match_at in H. simpl in H.
  destruct (at_boundary t s) eqn:Hs; [|discriminate].
  destruct (rmatch_sound _ _ _ _ _ H) as (j & cap' & Hm & Hk).
  destruct (at_boundary t j) eqn:Hj; [|discriminate].
  unfold accept in Hk. destruct (adv && (j =? s)); [discriminate|].
  injection Hk as -> ->. auto.
Qed.

Lemma search_found :
  forall r t n pos adv s res,
    search r t n pos adv = Some (s, res) ->
    pos <= s <= pos + n /\
    match_at r t s (adv && (s =? pos)) = Some res.
Proof.
  intros r t n; induction n as [|n IH]; intros pos adv s res H; simpl in H.
  - destruct (match_at r t pos adv) eqn:Hm; [|discriminate].
    injection H as <- <-. rewrite Nat.eqb_refl, andb_true_r. split; [lia|auto].
  - destruct (match_at r t pos adv) eqn:Hm.
    + injection H as <- <-. rewrite Nat.eqb_refl, andb_true_r. split; [lia|auto].
    + apply IH in H. destruct H as [Hr Hm'].
      assert ((s =? pos) = false) as -> by (apply Nat.eqb_neq; lia).
      rewrite andb_false_r. simpl in Hm'. split; [lia|auto].
Qed.

(** Every span that [finditer] reports is a match of the pattern. *)
Lemma finditer_from_match :
  forall r t fuel pos adv s e cap,
    In (s, (e, cap)) (finditer_from r t fuel pos adv) ->
    exists adv', match_at r t s adv' = Some (e, cap).
Proof.
  intros r t fuel; induction fuel as [|fuel IH]; intros pos adv s e cap H; simpl in H.
  - contradiction.
  - destruct (List.length t <? pos); [contradiction|].
    destruct (search r t (List.length t - pos) pos adv) as [[s' [e' cap']]|] eqn:Hs;
      [|contradiction].
    destruct H as [H|H].
    + injection H as -> -> ->. apply search_found in Hs. destruct Hs as [_ Hs]. eauto.
    + eauto.
Qed.

Lemma finditer_match :
  forall r t s e cap,
    In (s, (e, cap)) (finditer r t) ->
    exists adv, match_at r t s adv = Some (e, cap).
Proof. intros r t s e cap H. exact (finditer_from_match _ _ _ _ _ _ _ _ H). Qed.

(** The loop of [finditer] never runs out of steps: [2 * (len - pos) + 2]
    of them are enough from [pos], and more change nothing. *)
Lemma finditer_fuel_enough :
  forall r t fuel1 fuel2 pos adv,
    pos <= List.length t ->
    2 * (List.length t - pos) + (if adv : bool then 1 else 2) <= fuel1 ->
    2 * (List.length t - pos) + (if adv : bool then 1 else 2) <= fuel2 ->
    finditer_from r t fuel1 pos adv = finditer_from r t fuel2 pos adv.
Proof.
  intros r t fuel1; induction fuel1 as [|fuel1 IH]; intros fuel2 pos adv Hpos H1 H2.
  - destruct adv; lia.
  - destruct fuel2 as [|fuel2]; [destruct adv; lia|].
    simpl. destruct (List.length t <? pos) eqn:Hlt; [reflexivity|].
    destruct (search r t (List.length t - pos) pos adv) as [[s [e cap]]|] eqn:Hs;
      [|reflexivity].
    f_equal.
    apply search_found in Hs. destruct Hs as [Hr Hm].
    apply match_at_span in Hm. destruct Hm as (Hmt & Hse & Hadv).
    assert (e <= List.length t) by (eapply matches_in_text; eauto; lia).
    destruct (e =? s) eqn:Hes.
    + apply Nat.eqb_eq in Hes. subst e.
      destruct adv.
      * destruct (s =? pos) eqn:Hsp.
        -- specialize (Hadv eq_refl). lia.
        -- apply Nat.eqb_neq in Hsp. apply IH; auto; lia.
      * apply IH; auto; lia.
    + apply Nat.eqb_neq in Hes. apply IH; auto; destruct adv; lia.
Qed.

Lemma finditer_total :
  forall r t fuel,
    2 * List.length t + 2 <= fuel ->
    finditer_from r t fuel 0 false = finditer r t.
Proof.
  intros r t fuel H. unfold finditer.
  apply finditer_fuel_enough; rewrite ?Nat.sub_0_r; lia.
Qed.

(** A sequence of literal characters matches exactly the next characters
    of the text, compared as the flag says. *)
Lemma matches_literal :
  forall t ic cs i j,
    matches t (mkseq (map (Chr ic) cs)) i j ->
    j = i + List.length cs /\
    Forall2 (fun x c => char_eqb ic x c = true) (firstn (j - i) (skipn i t)) cs.
Proof.
  intros t ic cs; induction cs as [|c cs IH]; intros i j H; simpl in H.
  - inversion H; subst. split; [simpl; lia|]. rewrite Nat.sub_diag. constructor.
  - inversion H as [| | | | |a b i0 j0 k0 Ha Hb| | | |]; subst.
    inversion Ha as [|ic0 c0 i0 x Hx Hc| | | | | | | |]; subst.
    apply IH in Hb. destruct Hb as [-> Hf]. split; [simpl; lia|].
    replace (S i + List.length cs - i) with (S (List.length cs)) by lia.
    replace (S i + List.length cs - S i) with (List.length cs) in Hf by lia.
    assert (skipn i t = x :: skipn (S i) t) as ->.
    { clear -Hx. revert i Hx. induction t as [|y t IHt]; intros [|i] Hx; simpl in *;
        try discriminate.
      - congruence.
      - apply IHt in Hx. destruct t; [destruct i; discriminate|exact Hx]. }
    simpl. constructor; auto.
Qed.

End ReFacts.

(* ================================================================== *)
(** * Properties of [sorted(set(...))] *)

Module PyFacts.
Import Py.

Local Abbreviation lt := String_as_OT.lt.

Lemma lt_irrefl : forall x, ~ lt x x.
Proof. intros x H. exact (StrictOrder_Irreflexive x H). Qed.

Lemma lt_trans : forall x y z, lt x y -> lt y z -> lt x z.
Proof. intros x y z. apply (StrictOrder_Transitive x y z). Qed.

Lemma insert_sorted_perm : forall x l, Permutation (insert_sorted x l) (x :: l).
Proof.
  intros x l; induction l as [|y l IH]; simpl.
  - apply Permutation_refl.
  - destruct (String_as_OT.compare x y); try apply Permutation_refl.
    eapply perm_trans; [apply perm_skip, IH | apply perm_swap].
Qed.

Lemma sorted_perm : forall l, Permutation (sorted l) l.
Proof.
  induction l as [|x l IH]; simpl.
  - constructor.
  - eapply perm_trans; [apply insert_sorted_perm | apply perm_skip, IH].
Qed.

Lemma insert_sorted_strict :
  forall x l,
    StronglySorted lt l -> ~ In x l -> StronglySorted lt (insert_sorted x l).
Proof.
  intros x l Hs; induction Hs as [|y l Hs IH Hy]; intros Hx; simpl.
  - repeat constructor.
  - destruct (String_as_OT.compare_spec x y) as [Heq|Hlt|Hgt].
    + exfalso. apply Hx. left. symmetry. exact Heq.
    + constructor; [constructor; assumption|].
      constructor; [exact Hlt|].
      rewrite Forall_forall in *. intros z Hz. eapply lt_trans; eauto.
    + constructor.
      * apply IH. intros Hin. apply Hx. right. exact Hin.
      * rewrite Forall_forall in *. intros z Hz.
        apply (Permutation_in _ (insert_sorted_perm x l)) in Hz.
        destruct Hz as [<-|Hz]; auto.
Qed.

(** [sorted] of distinct strings is strictly ascending. *)
Lemma sorted_strict : forall l, NoDup l -> StronglySorted lt (sorted l).
Proof.
  induction 1 as [|x l Hx Hnd IH]; simpl.
  - constructor.
  - apply insert_sorted_strict; [exact IH|].
    intros Hin. apply Hx. eapply Permutation_in; [apply sorted_perm|exact Hin].
Qed.

Lemma strict_NoDup : forall l, StronglySorted lt l -> NoDup l.
Proof.
  induction 1 as [|x l Hs IH Hx]; constructor; auto.
  intros Hin. rewrite Forall_forall in Hx. exact (lt_irrefl (Hx _ Hin)).
Qed.

(** A strictly ascending list is determined by its members. *)
Lemma strict_unique :
  forall l1 l2,
    StronglySorted lt l1 -> StronglySorted lt l2 ->
    (forall x, In x l1 <-> In x l2) -> l1 = l2.
Proof.
  intros l1 l2 H1; revert l2; induction H1 as [|a l1 H1 IH Ha]; intros l2 H2 Hmem.
  - destruct l2 as [|b l2]; [reflexivity|].
    exfalso. apply (proj2 (Hmem b)). left; reflexivity.
  - destruct H2 as [|b l2 H2 Hb].
    + exfalso. apply (proj1 (Hmem a)). left; reflexivity.
    + rewrite Forall_forall in Ha, Hb.
      assert (a = b) as <-.
      { destruct (proj1 (Hmem a) (or_introl eq_refl)) as [Hab|Hab]; [auto|].
        destruct (proj2 (Hmem b) (or_introl eq_refl)) as [Hba|Hba]; [auto|].
        exfalso. apply (lt_irrefl (x:=a)). eapply lt_trans; eauto. }
      f_equal. apply IH; [exact H2|].
      intros x; split; intros Hx.
      * destruct (proj1 (Hmem x) (or_intror Hx)) as [<-|Hx']; [|exact Hx'].
        exfalso. exact (lt_irrefl (Ha _ Hx)).
      * destruct (proj2 (Hmem x) (or_intror Hx)) as [<-|Hx']; [|exact Hx'].
        exfalso. exact (lt_irrefl (Hb _ Hx)).
Qed.

Section WithSet.
Variable rt : runtime.
Hypothesis Hset : set_ok rt.

Lemma set_iter_NoDup : forall l, NoDup (set_iter rt l).
Proof.
  intros l. eapply Permutation_NoDup; [apply Permutation_sym, Hset|].
  apply NoDup_nodup.
Qed.

Lemma set_iter_In : forall l x, In x (set_iter rt l) <-> In x l.
Proof.
  intros l x. rewrite <- (nodup_In string_dec l x). split; intros H.
  - eapply Permutation_in; [apply Hset|exact H].
  - eapply Permutation_in; [apply Permutation_sym, Hset|exact H].
Qed.

Lemma sorted_set_strict : forall l, StronglySorted lt (sorted (set_iter rt l)).
Proof. intros l. apply sorted_strict, set_iter_NoDup. Qed.

Lemma sorted_set_In : forall l x, In x (sorted (set_iter rt l)) <-> In x l.
Proof.
  intros l x. split; intros H.
  - apply set_iter_In. eapply Permutation_in; [apply sorted_perm|exact H].
  - apply set_iter_In in H.
    eapply Permutation_in; [apply Permutation_sym, sorted_perm|exact H].
Qed.

(** The order in which the set is iterated does not show in the result. *)
Lemma sorted_set_canonical :
  forall l, sorted (set_iter rt l) = sorted (nodup string_dec l).
Proof.
  intros l. apply strict_unique.
  - apply sorted_set_strict.
  - apply sorted_strict, NoDup_nodup.
  - intros x. rewrite sorted_set_In. split; intros H.
    + eapply Permutation_in; [apply Permutation_sym, sorted_perm|].
      apply nodup_In. exact H.
    + apply (nodup_In string_dec).
      eapply Permutation_in; [apply sorted_perm|exact H].
Qed.

Lemma sorted_set_nonempty : forall l, l <> [] -> sorted (set_iter rt l) <> [].
Proof.
  intros [|x l] H; [congruence|]. intros Heq.
  assert (In x (sorted (set_iter rt (x :: l)))) as Hin
    by (apply sorted_set_In; left; reflexivity).
  rewrite Heq in Hin. contradiction.
Qed.

End WithSet.

Lemma set_ok_nodup :
  forall jl pr, set_ok (mkRuntime (nodup string_dec) jl pr).
Proof. intros jl pr l. apply Permutation_refl. Qed.

End PyFacts.

(* ================================================================== *)
(** * The compliance evaluator: verdicts and issues *)

Module EvaluatorSpec.
Import Py Catalog Evaluator PyFacts.

Lemma build_rules_ok : build_rules = Some COMPLIANCE_RULES.
Proof. vm_compute. reflexivity. Qed.

Lemma in_set_severity :
  forall sev issues,
    in_set sev (map issue_severity issues) = true <-> has_severity sev issues.
Proof.
  intros sev issues. unfold in_set, has_severity. rewrite existsb_exists. split.
  - intros (x & Hin & Heq). apply in_map_iff in Hin. destruct Hin as (i & <- & Hi).
    apply String.eqb_eq in Heq. exists i. split; auto.
  - intros (i & Hi & <-). exists (issue_severity i). split.
    + apply in_map. exact Hi.
    + apply String.eqb_refl.
Qed.

Lemma in_set_severity_false :
  forall sev issues,
    ~ has_severity sev issues -> in_set sev (map issue_severity issues) = false.
Proof.
  intros sev issues H. destruct (in_set sev (map issue_severity issues)) eqn:E; [|reflexivity].
  exfalso. apply H, in_set_severity, E.
Qed.

Lemma check_rule_fires :
  forall rt text r,
    check_rule rt text r = if fires text r then [issue_of rt text r] else [].
Proof.
  intros rt text r. unfold check_rule, fires, issue_of.
  destruct (Re.findall (rule_regex r) text); reflexivity.
Qed.

Lemma check_rules_acc :
  forall rt text rules acc,
    check_rules rt text rules acc = acc ++ flat_map (check_rule rt text) rules.
Proof.
  intros rt text rules; induction rules as [|r rules IH]; intros acc; simpl.
  - rewrite app_nil_r. reflexivity.
  - rewrite IH, <- app_assoc. reflexivity.
Qed.

(** The loop of [check_compliance] keeps the rules that fire, in their
    order, and turns each into its issue. *)
Lemma check_compliance_filter :
  forall rt text category,
    check_compliance rt text category =
    map (issue_of rt text) (filter (fires text) (rules_for category)).
Proof.
  intros rt text category. unfold check_compliance. rewrite check_rules_acc. simpl.
  induction (rules_for category) as [|r rules IH]; simpl; [reflexivity|].
  rewrite check_rule_fires, IH. destruct (fires text r); reflexivity.
Qed.

(** C1: the verdict follows the dominance order critical, warning, info on
    the severities present in the issue list; the empty issue list, and so
    any text without a match of a rule of its category, is Compliant. *)
Theorem verdict_dominance :
  (forall issues,
     (has_severity "critical" issues ->
      get_compliance_score issues = "Needs Review") /\
     (~ has_severity "critical" issues -> has_severity "warning" issues ->
      get_compliance_score issues = "Caution") /\
     (~ has_severity "critical" issues -> ~ has_severity "warning" issues ->
      has_severity "info" issues ->
      get_compliance_score issues = "Minor Notes") /\
     (~ has_severity "critical" issues -> ~ has_severity "warning" issues ->
      ~ has_severity "info" issues ->
      get_compliance_score issues = "Compliant")) /\
  get_compliance_score [] = "Compliant" /\
  (forall rt text category,
     (forall r, In r (rules_for category) -> Re.findall (rule_regex r) text = []) ->
     check_compliance rt text category = [] /\
     get_compliance_score (check_compliance rt text category) = "Compliant").
Proof.
  split; [|split; [reflexivity|]].
  - intros issues. unfold get_compliance_score. cbv zeta. repeat split.
    + intros Hc. apply in_set_severity in Hc. rewrite Hc. reflexivity.
    + intros Hc Hw. rewrite (in_set_severity_false Hc).
      apply in_set_severity in Hw. rewrite Hw. reflexivity.
    + intros Hc Hw Hi. rewrite (in_set_severity_false Hc), (in_set_severity_false Hw).
      apply in_set_severity in Hi. rewrite Hi. reflexivity.
    + intros Hc Hw Hi.
      rewrite (in_set_severity_false Hc), (in_set_severity_false Hw),
        (in_set_severity_false Hi). reflexivity.
  - intros rt text category Hnone.
    assert (check_compliance rt text category = []) as E.
    { rewrite check_compliance_filter.
      induction (rules_for category) as [|r rules IH]; simpl; [reflexivity|].
      unfold fires at 1. rewrite (Hnone r (or_introl eq_refl)).
      apply IH. intros r' Hr'. apply Hnone. right. exact Hr'. }
    rewrite E. split; reflexivity.
Qed.

(** A runtime whose sets are iterated in order of first insertion. *)
Definition plain_runtime : runtime :=
  mkRuntime (nodup string_dec) (fun _ => None) (fun _ => "").

(** A runtime whose sets are iterated the other way round. *)
Definition reversed_runtime : runtime :=
  mkRuntime (fun l => rev (nodup string_dec l)) (fun _ => None) (fun _ => "").

Lemma plain_runtime_ok : set_ok plain_runtime.
Proof. intros l. apply Permutation_refl. Qed.

Lemma reversed_runtime_ok : set_ok reversed_runtime.
Proof. intros l. apply Permutation_sym, Permutation_rev. Qed.

Lemma verdict_dominance_witness :
  get_compliance_score
    [mkIssue "a" "info" ["pure"]; mkIssue "b" "critical" ["cure"];
     mkIssue "c" "warning" ["best"]] = "Needs Review" /\
  get_compliance_score
    [mkIssue "a" "info" ["pure"]; mkIssue "c" "warning" ["best"];
     mkIssue "d" "info" ["organic"]] = "Caution" /\
  get_compliance_score
    [mkIssue "a" "info" ["pure"]; mkIssue "d" "info" ["organic"]] = "Minor Notes" /\
  check_compliance plain_runtime "A gentle serum for daily use" "Skincare" = [].
Proof.
  destruct verdict_dominance as (Hdom & _ & Hnone).
  split; [|split; [|split]].
  - apply (proj1 (Hdom _)). eexists. split; [right; left; reflexivity|reflexivity].
  - apply (proj1 (proj2 (Hdom _))).
    + intros (i & Hin & Hs). simpl in Hin.
      destruct Hin as [<-|[<-|[<-|[]]]]; discriminate.
    + eexists. split; [right; left; reflexivity|reflexivity].
  - apply (proj1 (proj2 (proj2 (Hdom _)))).
    + intros (i & Hin & Hs). simpl in Hin. destruct Hin as [<-|[<-|[]]]; discriminate.
    + intros (i & Hin & Hs). simpl in Hin. destruct Hin as [<-|[<-|[]]]; discriminate.
    + eexists. split; [left; reflexivity|reflexivity].
  - apply Hnone. intros r Hr. vm_compute in Hr.
    repeat (destruct Hr as [<-|Hr]; [vm_compute; reflexivity|]). contradiction.
Defined.

(** C5: the matched terms of every issue are without duplicates and in
    ascending lexicographic order, and they are the terms its rule found;
    "cure" twice and "heal" once give ["cure"; "heal"]. *)
Theorem matched_terms_sorted_unique :
  forall rt, set_ok rt ->
    (forall text category i,
       In i (check_compliance rt text category) ->
       StronglySorted String_as_OT.lt (issue_matches i) /\
       NoDup (issue_matches i) /\
       exists r, In r (rules_for category) /\ issue_rule i = rule_name r /\
                 forall x, In x (issue_matches i) <-> In x (Re.findall (rule_regex r) text)) /\
    check_compliance rt "cure it, heal it, cure it again" "Skincare" =
      [mkIssue "No disease treatment claims" "critical" ["cure"; "heal"]].
Proof.
  intros rt Hset. split.
  - intros text category i Hi. rewrite check_compliance_filter in Hi.
    apply in_map_iff in Hi. destruct Hi as (r & <- & Hr).
    apply filter_In in Hr. destruct Hr as [Hr _]. simpl.
    split; [apply sorted_set_strict; exact Hset|].
    split; [apply strict_NoDup, sorted_set_strict; exact Hset|].
    exists r. repeat split; auto; apply sorted_set_In; auto.
  - rewrite check_compliance_filter.
    set (fired := filter _ _). vm_compute in fired. subst fired.
    cbv [map issue_of rule_name rule_severity rule_regex].
    rewrite (sorted_set_canonical Hset). vm_compute. reflexivity.
Qed.

Lemma matched_terms_sorted_unique_witness :
  check_compliance reversed_runtime "cure it, heal it, cure it again" "Skincare" =
    [mkIssue "No disease treatment claims" "critical" ["cure"; "heal"]].
Proof.
  exact (proj2 (matched_terms_sorted_unique reversed_runtime_ok)).
Defined.

(** C8: evaluating a text against a category gives the same issue
    sequence every time, in whatever order a run iterates its sets. *)
Theorem check_compliance_deterministic :
  forall rt1 rt2, set_ok rt1 -> set_ok rt2 ->
    forall text category,
      check_compliance rt1 text category = check_compliance rt2 text category.
Proof.
  intros rt1 rt2 H1 H2 text category. rewrite !check_compliance_filter.
  apply map_ext. intros r. unfold issue_of.
  rewrite (sorted_set_canonical H1), (sorted_set_canonical H2). reflexivity.
Qed.

Lemma check_compliance_deterministic_witness :
  check_compliance plain_runtime "Our spray is 100% safe and kills 99% of germs." "Household"
  = check_compliance reversed_runtime "Our spray is 100% safe and kills 99% of germs." "Household".
Proof.
  apply (check_compliance_deterministic plain_runtime_ok reversed_runtime_ok).
Defined.

(** C9: the issues are those of the rules of the category that have a
    match, one per such rule and in the order the rules are declared, each
    with the name and severity of its rule and at least one matched term;
    so there are at most as many issues as rules. *)
Theorem issues_follow_rules :
  forall rt, set_ok rt ->
    forall text category,
      check_compliance rt text category =
        map (issue_of rt text) (filter (fires text) (rules_for category)) /\
      map (fun i => (issue_rule i, issue_severity i)) (check_compliance rt text category) =
        map (fun r => (rule_name r, rule_severity r))
            (filter (fires text) (rules_for category)) /\
      Forall (fun i => issue_matches i <> []) (check_compliance rt text category) /\
      List.length (check_compliance rt text category) <= List.length (rules_for category).
Proof.
  intros rt Hset text category. rewrite check_compliance_filter. repeat split.
  - rewrite map_map. reflexivity.
  - apply Forall_forall. intros i Hi. apply in_map_iff in Hi.
    destruct Hi as (r & <- & Hr). apply filter_In in Hr. destruct Hr as [_ Hf].
    simpl. apply sorted_set_nonempty; [exact Hset|].
    unfold fires in Hf. destruct (Re.findall (rule_regex r) text); congruence.
  - rewrite length_map. apply filter_length_le.
Qed.

Lemma issues_follow_rules_witness :
  map (fun i => (issue_rule i, issue_severity i))
      (check_compliance plain_runtime
         "Our spray is 100% safe and kills 99% of germs." "Household") =
  [("No absolute safety claims", "critical");
   ("Efficacy claims need qualification", "warning")].
Proof.
  rewrite (proj1 (proj2 (issues_follow_rules plain_runtime_ok _ _))).
  vm_compute. reflexivity.
Defined.

(** ** Word boundaries *)

Lemma is_word_lower : forall c, Chars.is_word (Chars.lower c) = Chars.is_word c.
Proof.
  intros [b0 b1 b2 b3 b4 b5 b6 b7].
  destruct b0, b1, b2, b3, b4, b5, b6, b7; vm_compute; reflexivity.
Qed.

Lemma ci_eqb_word :
  forall x c, Chars.ci_eqb x c = true -> Chars.is_word x = Chars.is_word c.
Proof.
  intros x c H. unfold Chars.ci_eqb in H. apply Ascii.eqb_eq in H.
  rewrite <- (is_word_lower x), <- (is_word_lower c), H. reflexivity.
Qed.

Lemma Forall2_ci_lower :
  forall xs cs,
    Forall2 (fun x c => Re.char_eqb true x c = true) xs cs ->
    Re.lower_string xs = Re.lower_string cs.
Proof.
  unfold Re.lower_string. induction 1 as [|x c xs cs Hx _ IH]; simpl; [reflexivity|].
  simpl in Hx. unfold Chars.ci_eqb in Hx. apply Ascii.eqb_eq in Hx.
  rewrite Hx. f_equal. exact IH.
Qed.

Lemma Forall2_nth_error :
  forall (A B : Type) (P : A -> B -> Prop) xs cs k c,
    Forall2 P xs cs -> nth_error cs k = Some c ->
    exists x, nth_error xs k = Some x /\ P x c.
Proof.
  intros A B P xs cs k c H; revert k; induction H as [|x c' xs cs Hx _ IH];
    intros [|k] Hk; simpl in *; try discriminate.
  - injection Hk as <-. eauto.
  - eauto.
Qed.

Lemma slice_nth_error :
  forall (t : list ascii) s n k x,
    nth_error (firstn n (skipn s t)) k = Some x -> nth_error t (s + k) = Some x.
Proof.
  intros t s n k x H. rewrite nth_error_firstn in H.
  destruct (k <? n); [|discriminate]. rewrite nth_error_skipn in H. exact H.
Qed.

(** A literal that begins and ends with a word character, matched between
    two word boundaries, is a whole word of the text. *)
Lemma literal_whole_word :
  forall t cs s e first last,
    Re.matches t (Re.mkseq (map (Re.Chr true) cs)) s e ->
    Re.at_boundary t s = true -> Re.at_boundary t e = true ->
    nth_error cs 0 = Some first -> Chars.is_word first = true ->
    nth_error cs (List.length cs - 1) = Some last -> Chars.is_word last = true ->
    Re.lower_string (firstn (e - s) (skipn s t)) = Re.lower_string cs /\
    Re.word_before t s = false /\ Re.word_at t e = false.
Proof.
  intros t cs s e first last Hm Hbs Hbe Hf Hfw Hl Hlw.
  apply ReFacts.matches_literal in Hm. destruct Hm as [-> HF].
  split; [apply Forall2_ci_lower; exact HF|].
  destruct (Forall2_nth_error _ HF Hf) as (x & Hx & Hxc).
  destruct (Forall2_nth_error _ HF Hl) as (y & Hy & Hyc).
  apply slice_nth_error in Hx, Hy. simpl in Hxc, Hyc.
  apply ci_eqb_word in Hxc, Hyc. rewrite Nat.add_0_r in Hx.
  assert (Re.word_at t s = true) as Hws
    by (unfold Re.word_at; rewrite Hx; congruence).
  assert (List.length cs <> 0) as Hlen by (destruct cs; simpl; [discriminate|lia]).
  assert (Re.word_before t (s + List.length cs) = true) as Hwe.
  { replace (s + List.length cs) with (S (s + (List.length cs - 1))) by lia.
    simpl. unfold Re.word_at. rewrite Hy. congruence. }
  unfold Re.at_boundary in Hbs, Hbe. rewrite Hws in Hbs. rewrite Hwe in Hbe.
  split.
  - destruct (Re.word_before t s); [discriminate|reflexivity].
  - destruct (Re.word_at t (s + List.length cs)); [discriminate|reflexivity].
Qed.

Lemma dict_get_In :
  forall (V : Type) (d : dict V) k v, dict_get d k = Some v -> In (k, v) d.
Proof.
  intros V d k v; induction d as [|[k' v'] d IH]; simpl; [discriminate|].
  destruct (String.eqb k' k) eqn:E.
  - intros H. injection H as ->. apply String.eqb_eq in E. subst. left; reflexivity.
  - intros H. right. apply IH, H.
Qed.

(** Every rule of the catalogue has the shape [\b(...)\b]. *)
Lemma rules_anchored :
  forall category r, In r (rules_for category) -> Re.anchored (rule_regex r) = true.
Proof.
  intros category r Hr. unfold rules_for, dict_get_default in Hr.
  destruct (dict_get COMPLIANCE_RULES category) as [rules|] eqn:E; [|contradiction].
  apply dict_get_In in E.
  assert (forallb (fun e => forallb (fun r => Re.anchored (rule_regex r)) (snd e))
            COMPLIANCE_RULES = true) as Hall by (vm_compute; reflexivity).
  rewrite forallb_forall in Hall. specialize (Hall _ E). simpl in Hall.
  rewrite forallb_forall in Hall. exact (Hall _ Hr).
Qed.

Lemma anchored_shape :
  forall r, Re.anchored r = true ->
    exists g, r = Re.Seq Re.WordB (Re.Seq (Re.Group g) (Re.Seq Re.WordB Re.Eps)).
Proof.
  intros r H. unfold Re.anchored in H.
  repeat match type of H with
         | match ?x with _ => _ end = true => destruct x; try discriminate
         end.
  eauto.
Qed.

Ltac whole_word w first last :=
  match goal with
  | H : Re.matches ?t (Re.Seq _ _) ?s ?e |- _ =>
      apply (@literal_whole_word t (list_ascii_of_string w) s e first last) in H;
      [ destruct H as (-> & ? & ?); simpl; auto 6
      | assumption | assumption | reflexivity | reflexivity | reflexivity | reflexivity ]
  end.

(** C4: the disease-treatment rule of Skincare does not fire on "the
    curettage procedure" and fires on "this will cure it"; whatever it
    matches in any text is one of its four words standing alone, with no
    word character on either side; and every match of every rule of the
    catalogue lies between two word boundaries. *)
Theorem word_boundary_safe :
  (forall rt i,
     In i (check_compliance rt "the curettage procedure" "Skincare") ->
     issue_rule i <> "No disease treatment claims") /\
  (forall rt, exists i,
     In i (check_compliance rt "this will cure it" "Skincare") /\
     issue_rule i = "No disease treatment claims") /\
  (forall r text s e cap,
     In r (rules_for "Skincare") -> rule_name r = "No disease treatment claims" ->
     In (s, (e, cap)) (Re.finditer (rule_regex r) (list_ascii_of_string text)) ->
     In (Re.lower_string (firstn (e - s) (skipn s (list_ascii_of_string text))))
        ["cure"; "treat"; "heal"; "remedy"] /\
     Re.word_before (list_ascii_of_string text) s = false /\
     Re.word_at (list_ascii_of_string text) e = false) /\
  (forall category r text s e cap,
     In r (rules_for category) ->
     In (s, (e, cap)) (Re.finditer (rule_regex r) (list_ascii_of_string text)) ->
     Re.at_boundary (list_ascii_of_string text) s = true /\
     Re.at_boundary (list_ascii_of_string text) e = true /\
     cap = Some (s, e)).
Proof.
  split; [|split; [|split]].
  - intros rt i Hi. rewrite check_compliance_filter in Hi.
    set (fired := filter _ _) in Hi. vm_compute in fired. subst fired.
    contradiction.
  - intros rt. rewrite check_compliance_filter.
    set (fired := filter _ _). vm_compute in fired. subst fired.
    eexists. split; [left; reflexivity|reflexivity].
  - intros r text s e cap Hr Hname Hin.
    set (t := list_ascii_of_string text) in *. clearbody t.
    vm_compute in Hr.
    destruct Hr as [<-|[<-|[<-|[<-|[<-|[]]]]]]; simpl in Hname; try discriminate.
    simpl rule_regex in Hin.
    apply ReFacts.finditer_match in Hin. destruct Hin as (adv & Hm).
    apply ReFacts.anchored_match in Hm. destruct Hm as (Hbs & Hbe & Hg & _).
    repeat match goal with
           | H : Re.matches _ (Re.Alt _ _) _ _ |- _ =>
               let H' := fresh "Hword" in
               inversion H as [| | | | | |? ? ? ? H'|? ? ? ? H'| |]; subst; clear H
           end.
    + whole_word "cure" "c"%char "e"%char.
    + whole_word "treat" "t"%char "t"%char.
    + whole_word "heal" "h"%char "l"%char.
    + whole_word "remedy" "r"%char "y"%char.
  - intros category r text s e cap Hr Hin.
    destruct (anchored_shape _ (rules_anchored _ _ Hr)) as (g & Hg).
    rewrite Hg in Hin.
    apply ReFacts.finditer_match in Hin. destruct Hin as (adv & Hm).
    apply ReFacts.anchored_match in Hm. tauto.
Qed.

Lemma word_boundary_safe_witness :
  Re.word_before (list_ascii_of_string "this will cure it") 10 = false /\
  Re.word_at (list_ascii_of_string "this will cure it") 14 = false.
Proof.
  destruct word_boundary_safe as (_ & _ & Hword & _).
  refine (proj2 (Hword (mkRule "No disease treatment claims" "critical" _)
                   "this will cure it" 10 14 (Some (10, 14)) _ _ _)).
  - vm_compute. left. reflexivity.
  - reflexivity.
  - vm_compute. left. reflexivity.
Defined.

End EvaluatorSpec.

(* ================================================================== *)
(** * The generation client and the orchestrator *)

Module OrchestratorSpec.
Import Py Catalog Evaluator Data Client Orchestrator.

(** ** Dictionaries *)

Lemma dict_get_set_same :
  forall (V : Type) (d : dict V) k v, dict_get (dict_set d k v) k = Some v.
Proof.
  intros V d k v; induction d as [|[k' v'] d IH]; simpl.
  - rewrite String.eqb_refl. reflexivity.
  - destruct (String.eqb k' k) eqn:E; simpl; rewrite E; auto.
Qed.

Lemma dict_get_set_other :
  forall (V : Type) (d : dict V) k k' v,
    k' <> k -> dict_get (dict_set d k v) k' = dict_get d k'.
Proof.
  intros V d k k' v Hne; induction d as [|[k0 v0] d IH]; simpl.
  - apply String.eqb_neq in Hne. rewrite String.eqb_sym, Hne. reflexivity.
  - destruct (String.eqb k0 k) eqn:E; simpl.
    + apply String.eqb_eq in E. subst k0.
      apply String.eqb_neq in Hne. rewrite String.eqb_sym, Hne. reflexivity.
    + destruct (String.eqb k0 k'); auto.
Qed.

Lemma dict_set_absent :
  forall (V : Type) (d : dict V) k v,
    dict_get d k = None -> dict_set d k v = d ++ [(k, v)].
Proof.
  intros V d k v; induction d as [|[k' v'] d IH]; simpl; intros H; [reflexivity|].
  destruct (String.eqb k' k); [discriminate|]. rewrite IH; auto.
Qed.

(** Fields keep their places: [d[k] = v] changes no key but may add [k]
    at the end. *)
Lemma dict_set_keys :
  forall (V : Type) (d : dict V) k v,
    keys (dict_set d k v) =
    match dict_get d k with Some _ => keys d | None => keys d ++ [k] end.
Proof.
  intros V d k v; induction d as [|[k' v'] d IH]; simpl; [reflexivity|].
  destruct (String.eqb k' k) eqn:E; simpl; [reflexivity|].
  unfold keys in *. rewrite IH. destruct (dict_get d k); reflexivity.
Qed.

(** ** A small world to run the program in *)

Definition demo_variant : pyval :=
  PDict [ ("label", PStr "Variant A"); ("headline", PStr "Glow on");
          ("body", PStr "A serum that supports radiance"); ("cta", PStr "Shop now");
          ("hashtags", PList [PStr "glow"]); ("complianceNotes", PStr "none") ].

Definition reply_with (content : string) : pyval :=
  PDict [("choices", PList [PDict [("message", PDict [("content", PStr content)])]])].

(** A stand-in for [json.loads] that knows six texts. *)
Definition demo_json_loads (s : string) : option pyval :=
  if String.eqb s "body:variants" then Some (reply_with "```json variants ```")
  else if String.eqb s "variants" then Some (PDict [("variants", PList [demo_variant])])
  else if String.eqb s "body:no-variants" then Some (reply_with "no-variants")
  else if String.eqb s "no-variants" then Some (PDict [])
  else if String.eqb s "body:bad-variants" then Some (reply_with "bad-variants")
  else if String.eqb s "bad-variants" then Some (PDict [("variants", PStr "none")])
  else None.

Definition demo_runtime : runtime :=
  mkRuntime (nodup string_dec) demo_json_loads (fun _ => "").

Definition demo_world (body : string) : world :=
  mkWorld "sk-demo" (fun _ => NetBody body) [].

Definition demo_page (body : string) : page := mkPage [] (demo_world body) [].

Definition serum : product :=
  mkProduct "p1" "PureGlow Vitamin C Serum" "Skincare" "PureGlow Naturals"
    ["30% Vitamin C"] ["Brightens skin tone"] "Apply 3-4 drops." "Women 25-45" "$34.99"
    "Clinical-grade Vitamin C".

Definition instagram : channel :=
  mkChannel "instagram" "Instagram Post" 2200 "Visual-first caption with hashtags".

(** ** The loop over the channels *)

Section Loop.
Variable rt : runtime.
Variable p : product.
Variables tone season : string.
Variable num_variants : Z.
Variables custom_prompt model : string.
Variable total : nat.

Let loop := channel_loop rt p tone season num_variants custom_prompt model total.

Lemma channel_loop_cons_ok :
  forall ch todo i results ui w vs w' vs',
    generate_for_channel rt p ch tone season num_variants custom_prompt model w = (Ok vs, w') ->
    enrich_all rt (p_category p) vs [] = Ok vs' ->
    loop (ch :: todo) i results ui w =
    loop todo (S i) (results ++ [mkResult (c_id ch) (c_name ch) vs'])
      ((ui ++ [StatusWrite (generating ch i total)]) ++ [Progress i total]) w'.
Proof.
  intros ch todo i results ui w vs w' vs' Hg He. unfold loop. simpl.
  rewrite Hg. simpl. rewrite He. reflexivity.
Qed.

Lemma channel_loop_cons_raise :
  forall ch todo i results ui w e w',
    generate_for_channel rt p ch tone season num_variants custom_prompt model w = (Raise e, w') ->
    loop (ch :: todo) i results ui w =
    (Raise e, ui ++ [StatusWrite (generating ch i total)], w').
Proof.
  intros ch todo i results ui w e w' Hg. unfold loop. simpl. rewrite Hg. reflexivity.
Qed.

(** The results of a loop that ends well are the ones it started with,
    followed by one per channel, in the order of the channels. *)
Lemma channel_loop_order :
  forall todo i results ui w rs ui' w',
    loop todo i results ui w = (Ok rs, ui', w') ->
    map channel_name rs = map channel_name results ++ map c_name todo /\
    map channel_id rs = map channel_id results ++ map c_id todo.
Proof.
  unfold loop.
  intros todo; induction todo as [|ch todo IH]; intros i results ui w rs ui' w' H;
    simpl in H.
  - injection H as <- _ _. simpl. rewrite !app_nil_r. auto.
  - destruct (generate_for_channel rt p ch tone season num_variants custom_prompt model w)
      as [generated w1].
    destruct (bind generated (fun vs => enrich_all rt (p_category p) vs []))
      as [enriched|e]; [|discriminate].
    apply IH in H. rewrite !map_app in H. simpl in H.
    rewrite <- !app_assoc in H. exact H.
Qed.

End Loop.

Lemma channel_options_names :
  forall name c, dict_get channel_options name = Some c -> c_name c = name.
Proof.
  intros name c H. apply EvaluatorSpec.dict_get_In in H.
  assert (Forall (fun kv => c_name (snd kv) = fst kv) channel_options) as Hall
    by (vm_compute; repeat constructor).
  rewrite Forall_forall in Hall. exact (Hall _ H).
Qed.

Lemma select_channels_names :
  forall labels cs, select_channels labels = Ok cs -> map c_name cs = labels.
Proof.
  induction labels as [|name labels IH]; intros cs H; cbn [select_channels] in H.
  - injection H as <-. reflexivity.
  - destruct (dict_get channel_options name) as [c|] eqn:Hc; [|discriminate].
    destruct (select_channels labels) as [cs'|e]; cbn [bind] in H; [|discriminate].
    injection H as <-. simpl. rewrite (channel_options_names _ Hc), (IH _ eq_refl).
    reflexivity.
Qed.

(** C6: a run that completes leaves one ChannelResult per requested
    channel, in the order of the request. *)
Theorem results_in_request_order :
  forall rt p labels tone season num_variants custom_prompt model pg pg',
    labels <> [] ->
    main_generate rt p labels tone season num_variants custom_prompt model pg = Ok pg' ->
    completed pg' ->
    map channel_name (session_results pg') = labels /\
    exists selected,
      select_channels labels = Ok selected /\
      map channel_id (session_results pg') = map c_id selected.
Proof.
  intros rt p labels tone season num_variants custom_prompt model pg pg' Hne Hrun Hdone.
  unfold main_generate in Hrun.
  destruct labels as [|l labels]; [congruence|].
  destruct (select_channels (l :: labels)) as [selected|e] eqn:Hsel; [|discriminate].
  destruct (channel_loop rt p tone season num_variants custom_prompt model
              (List.length selected) selected 1 [] (shown pg ++ [ProgressBar])
              (the_world pg)) as [[[rs|err] ui] w] eqn:Hloop.
  - injection Hrun as <-. simpl.
    apply channel_loop_order in Hloop. destruct Hloop as [Hn Hi]. simpl in Hn, Hi.
    rewrite Hn, Hi. split; [apply select_channels_names; exact Hsel|eauto].
  - injection Hrun as <-. destruct Hdone as (ui0 & Hui). simpl in Hui.
    apply app_inj_tail in Hui. destruct Hui as [_ Hui]. discriminate.
Qed.

Lemma results_in_request_order_witness :
  match main_generate demo_runtime serum
          ["Email Campaign"; "Instagram Post"; "SMS/WhatsApp"]
          "Playful" "General" 2 "" "gpt-4o-mini" (demo_page "body:variants") with
  | Ok pg' =>
      map channel_name (session_results pg') =
        ["Email Campaign"; "Instagram Post"; "SMS/WhatsApp"]
  | Raise _ => False
  end.
Proof.
  destruct (main_generate demo_runtime serum
              ["Email Campaign"; "Instagram Post"; "SMS/WhatsApp"]
              "Playful" "General" 2 "" "gpt-4o-mini" (demo_page "body:variants"))
    as [pg'|e] eqn:Hrun.
  - refine (proj1 (@results_in_request_order _ _ _ _ _ _ _ _ _ _ _ Hrun _)).
    + discriminate.
    + vm_compute in Hrun. injection Hrun as <-. unfold completed. simpl shown.
      match goal with |- exists ui, ?l = _ => exists (removelast l) end.
      reflexivity.
  - vm_compute in Hrun. discriminate.
Defined.

(** C7: with no channel selected the request is refused with the message
    "Select at least one channel."; that is all the run does: nothing is
    sent, no result is produced, and the stored results stay as they
    were. *)
Theorem empty_selection_rejected :
  forall rt p tone season num_variants custom_prompt model pg,
    exists pg',
      main_generate rt p [] tone season num_variants custom_prompt model pg = Ok pg' /\
      shown pg' = shown pg ++ [StError "Select at least one channel."] /\
      the_world pg' = the_world pg /\
      sent (the_world pg') = sent (the_world pg) /\
      session_results pg' = session_results pg /\
      ~ completed pg'.
Proof.
  intros. eexists. split; [reflexivity|]. simpl. repeat split.
  intros (ui & Hui). apply app_inj_tail in Hui. destruct Hui as [_ Hui]. discriminate.
Qed.

Lemma fence_re_ok : Re.compile fence_pattern false = Some fence_re.
Proof. vm_compute. reflexivity. Qed.

(** ** The [variants] field of a reply *)

(** C2, as stated, fails on a reply without a [variants] field: the call
    returns no variants without an error, and the run stores a
    ChannelResult with no variants for the channel. *)
Lemma missing_variants_accepted :
  parse_variants demo_runtime "no-variants" = Ok [] /\
  fst (generate_for_channel demo_runtime serum instagram "Playful" "General" 2 ""
         "gpt-4o-mini" (demo_world "body:no-variants")) = Ok [] /\
  match main_generate demo_runtime serum ["Instagram Post"] "Playful" "General" 2 ""
          "gpt-4o-mini" (demo_page "body:no-variants") with
  | Ok pg' =>
      session_results pg' = [mkResult "instagram" "Instagram Post" []] /\
      completed pg'
  | Raise _ => False
  end.
Proof.
  split; [vm_compute; reflexivity|].
  split; [vm_compute; reflexivity|].
  vm_compute. split; [reflexivity|].
  match goal with |- exists ui, ?l = _ => exists (removelast l) end. reflexivity.
Qed.

(** C2, amended: a [variants] field that is present and is not a list
    fails the call with a RuntimeError; a reply object without the field is
    read as having the empty list, and a list, empty or not, is returned as
    it is.  A channel whose call returns no variants gets a ChannelResult
    with no variants and the run goes on; a call that raises ends the loop
    with that error and without results. *)
Theorem variants_field_handling :
  forall rt,
    (forall content parsed,
       json_loads rt (strip_json_fence content) = Some (PDict parsed) ->
       (dict_get parsed "variants" = None -> parse_variants rt content = Ok []) /\
       (forall vs, dict_get parsed "variants" = Some (PList vs) ->
                   parse_variants rt content = Ok vs) /\
       (forall v, dict_get parsed "variants" = Some v -> is_list v = false ->
                  parse_variants rt content =
                  Raise (RuntimeError "Model response did not include a valid 'variants' array."))) /\
    (forall p tone season num_variants custom_prompt model total ch todo i results ui w w',
       generate_for_channel rt p ch tone season num_variants custom_prompt model w
         = (Ok [], w') ->
       channel_loop rt p tone season num_variants custom_prompt model total
                    (ch :: todo) i results ui w =
       channel_loop rt p tone season num_variants custom_prompt model total
                    todo (S i) (results ++ [mkResult (c_id ch) (c_name ch) []])
                    ((ui ++ [StatusWrite (generating ch i total)]) ++ [Progress i total]) w') /\
    (forall p tone season num_variants custom_prompt model total ch todo i results ui w w' e,
       generate_for_channel rt p ch tone season num_variants custom_prompt model w
         = (Raise e, w') ->
       channel_loop rt p tone season num_variants custom_prompt model total
                    (ch :: todo) i results ui w =
       (Raise e, ui ++ [StatusWrite (generating ch i total)], w')).
Proof.
  intros rt. split; [|split].
  - intros content parsed Hp. unfold parse_variants. rewrite Hp.
    unfold dict_get_default. repeat split.
    + intros ->. reflexivity.
    + intros vs ->. reflexivity.
    + intros v -> Hv. destruct v; try reflexivity. discriminate.
  - intros. eapply channel_loop_cons_ok; eauto.
  - intros. eapply channel_loop_cons_raise; eauto.
Qed.

Lemma variants_field_handling_witness :
  parse_variants demo_runtime "bad-variants" =
    Raise (RuntimeError "Model response did not include a valid 'variants' array.") /\
  parse_variants demo_runtime "no-variants" = Ok [] /\
  parse_variants demo_runtime "variants" = Ok [demo_variant].
Proof.
  destruct (variants_field_handling demo_runtime) as (Hparse & _ & _).
  split; [|split].
  - refine (proj2 (proj2 (Hparse "bad-variants" [("variants", PStr "none")] _))
              (PStr "none") _ _); reflexivity.
  - refine (proj1 (Hparse "no-variants" [] _) _); reflexivity.
  - refine (proj1 (proj2 (Hparse "variants" [("variants", PList [demo_variant])] _))
              [demo_variant] _); reflexivity.
Defined.

(** ** Reference data in the prompt *)

Definition pet_treats : product :=
  mkProduct "p9" "ZenBrew Calm Chews" "Pet Care" "ZenBrew"
    ["Chamomile"] ["Calm focus"] "One chew a day." "Dog owners" "$12.99" "Calm in a chew".

(** C3, as stated, fails on a product whose category has no rules: the
    prompt is composed, with an empty rule list, and the request is sent. *)
Lemma unknown_category_composes :
  dict_get COMPLIANCE_RULES (p_category pet_treats) = None /\
  (exists brand,
     dict_get BRAND_STYLE_GUIDES (p_brand pet_treats) = Some brand /\
     build_payload pet_treats instagram "Playful" "General" 2 "" "gpt-4o-mini" =
     Ok (mkPayload "gpt-4o-mini" 1200
           (system_prompt pet_treats brand [])
           (user_prompt pet_treats instagram "Playful" "General" 2 ""))) /\
  List.length (sent (snd (generate_for_channel demo_runtime pet_treats instagram "Playful"
                            "General" 2 "" "gpt-4o-mini" (demo_world "body:variants")))) = 1.
Proof.
  split; [reflexivity|]. split.
  - eexists. split; reflexivity.
  - vm_compute. reflexivity.
Qed.

(** Once the request is composed, a call with an API key sends it,
    whatever the service then does. *)
Lemma composed_request_sent :
  forall rt p ch tone season num_variants custom_prompt model w pl,
    build_payload p ch tone season num_variants custom_prompt model = Ok pl ->
    String.eqb (strip (api_key w)) "" = false ->
    snd (generate_for_channel rt p ch tone season num_variants custom_prompt model w) =
    mkWorld (api_key w) (net w) (sent w ++ [pl]).
Proof.
  intros rt p ch tone season num_variants custom_prompt model w pl Hpl Hk.
  unfold generate_for_channel. rewrite Hpl. unfold openai_chat_completion. rewrite Hk.
  destruct (net w (List.length (sent w))) as [body|code body|reason|e].
  - destruct (json_loads rt body); reflexivity.
  - destruct (http_error_message rt body); reflexivity.
  - reflexivity.
  - reflexivity.
Qed.

(** Without an API key the call stops at the key, for any composed
    request, and sends nothing. *)
Lemma composed_request_needs_key :
  forall rt p ch tone season num_variants custom_prompt model w pl,
    build_payload p ch tone season num_variants custom_prompt model = Ok pl ->
    String.eqb (strip (api_key w)) "" = true ->
    generate_for_channel rt p ch tone season num_variants custom_prompt model w =
    (Raise (RuntimeError "OPENAI_API_KEY is missing. Add it in .env or your shell environment."),
     w).
Proof.
  intros rt p ch tone season num_variants custom_prompt model w pl Hpl Hk.
  unfold generate_for_channel. rewrite Hpl. unfold openai_chat_completion. rewrite Hk.
  reflexivity.
Qed.

(** C3, amended: a product whose brand has no style guide fails the
    composition with a KeyError on the brand, before anything is sent; a
    product whose category has no rules is composed with an empty rule
    list, and the composed request is sent whenever an API key is set;
    without a key the call stops with the missing-key error and sends
    nothing. *)
Theorem prompt_reference_data :
  forall p ch tone season num_variants custom_prompt model,
    (dict_get BRAND_STYLE_GUIDES (p_brand p) = None ->
     build_payload p ch tone season num_variants custom_prompt model =
       Raise (KeyError (PStr (p_brand p))) /\
     forall rt w,
       generate_for_channel rt p ch tone season num_variants custom_prompt model w =
       (Raise (KeyError (PStr (p_brand p))), w)) /\
    (forall brand,
       dict_get BRAND_STYLE_GUIDES (p_brand p) = Some brand ->
       dict_get COMPLIANCE_RULES (p_category p) = None ->
       build_payload p ch tone season num_variants custom_prompt model =
         Ok (mkPayload model 1200 (system_prompt p brand [])
               (user_prompt p ch tone season num_variants custom_prompt)) /\
       rules_text [] = "" /\
       (forall rt w,
          String.eqb (strip (api_key w)) "" = false ->
          snd (generate_for_channel rt p ch tone season num_variants custom_prompt model w) =
          mkWorld (api_key w) (net w)
            (sent w ++ [mkPayload model 1200 (system_prompt p brand [])
                          (user_prompt p ch tone season num_variants custom_prompt)])) /\
       (forall rt w,
          String.eqb (strip (api_key w)) "" = true ->
          generate_for_channel rt p ch tone season num_variants custom_prompt model w =
          (Raise (RuntimeError
                    "OPENAI_API_KEY is missing. Add it in .env or your shell environment."),
           w))).
Proof.
  intros p ch tone season num_variants custom_prompt model. split.
  - intros Hb.
    assert (build_payload p ch tone season num_variants custom_prompt model =
            Raise (KeyError (PStr (p_brand p)))) as E
      by (unfold build_payload; rewrite Hb; reflexivity).
    split; [exact E|]. intros rt w. unfold generate_for_channel. rewrite E. reflexivity.
  - intros brand Hb Hc.
    assert (build_payload p ch tone season num_variants custom_prompt model =
            Ok (mkPayload model 1200 (system_prompt p brand [])
                  (user_prompt p ch tone season num_variants custom_prompt))) as E
      by (unfold build_payload, dict_get_default; rewrite Hb, Hc; reflexivity).
    split; [exact E|]. split; [reflexivity|]. split.
    + intros rt w Hk. apply composed_request_sent; assumption.
    + intros rt w Hk. eapply composed_request_needs_key; eassumption.
Qed.

Definition unbranded : product :=
  mkProduct "p0" "Plain Soap" "Skincare" "No Such Brand"
    ["Soap"] ["Clean hands"] "Wash." "Everyone" "$1.00" "Soap".

Definition zenbrew_guide : brand_guide :=
  mkBrand "Mindful, premium, intellectual, calm confidence"
    ["Wise"; "Serene"; "Elevated"; "Intentional"]
    ["ritual"; "clarity"; "flow state"; "craft"; "mindful"; "elevate"]
    ["wired"; "buzzed"; "caffeine hit"; "basic"; "average"]
    "Clarity in Every Cup".

Lemma prompt_reference_data_witness :
  generate_for_channel demo_runtime unbranded instagram "Playful" "General" 2 ""
    "gpt-4o-mini" (demo_world "body:variants") =
  (Raise (KeyError (PStr "No Such Brand")), demo_world "body:variants") /\
  snd (generate_for_channel demo_runtime pet_treats instagram "Playful" "General" 2 ""
         "gpt-4o-mini" (demo_world "body:variants")) =
  mkWorld "sk-demo" (fun _ => NetBody "body:variants")
    [mkPayload "gpt-4o-mini" 1200 (system_prompt pet_treats zenbrew_guide [])
       (user_prompt pet_treats instagram "Playful" "General" 2 "")].
Proof.
  split.
  - refine (proj2 (proj1 (prompt_reference_data unbranded instagram "Playful" "General" 2 ""
                            "gpt-4o-mini") _) demo_runtime (demo_world "body:variants")).
    reflexivity.
  - refine (proj1 (proj2 (proj2
              (proj2 (prompt_reference_data pet_treats instagram "Playful" "General" 2 ""
                        "gpt-4o-mini") zenbrew_guide _ _)))
              demo_runtime (demo_world "body:variants") _); reflexivity.
Defined.

(** ** Enrichment *)

Definition scored_variant : dict pyval :=
  [ ("headline", PStr "Glow on"); ("_compliance_score", PStr "Approved") ].

(** C10, as stated, fails on a raw variant that already carries a field
    named [_compliance_score]: the field that came from the reply is
    changed, and one field is added, not two. *)
Lemma reply_field_overwritten :
  enrich_variant demo_runtime "Skincare" (PDict scored_variant) =
    Ok (PDict [ ("headline", PStr "Glow on");
                ("_compliance_score", PStr "Compliant");
                ("_compliance_issues", PList []) ]) /\
  dict_get scored_variant "_compliance_score" = Some (PStr "Approved").
Proof. split; vm_compute; reflexivity. Qed.

Lemma enrich_all_acc :
  forall rt category vs acc out,
    enrich_all rt category vs acc = Ok out ->
    exists vs', out = acc ++ vs' /\
                Forall2 (fun v v' => enrich_variant rt category v = Ok v') vs vs'.
Proof.
  intros rt category vs; induction vs as [|v vs IH]; intros acc out H; simpl in H.
  - injection H as <-. exists []. rewrite app_nil_r. split; [reflexivity|constructor].
  - destruct (enrich_variant rt category v) as [v'|e] eqn:Hv; [|discriminate].
    apply IH in H. destruct H as (vs' & -> & HF).
    exists (v' :: vs'). rewrite <- app_assoc. split; [reflexivity|].
    constructor; assumption.
Qed.

(** C10, amended: enriching a raw variant that is an object sets the two
    system fields, [_compliance_issues] and [_compliance_score], to the
    issues and the verdict of its text, and leaves every other field as it
    was; both fields are new, and go last, when the reply had neither.  The
    enriched variants of a channel are as many as the raw ones and in the
    same order. *)
Theorem enrichment_frame :
  forall rt category,
    (forall d,
       let issues := check_compliance rt (variant_text rt d) category in
       exists d',
         enrich_variant rt category (PDict d) = Ok (PDict d') /\
         dict_get d' "_compliance_issues" = Some (PList (map issue_value issues)) /\
         dict_get d' "_compliance_score" = Some (PStr (get_compliance_score issues)) /\
         (forall k, k <> "_compliance_issues" -> k <> "_compliance_score" ->
                    dict_get d' k = dict_get d k) /\
         (dict_get d "_compliance_issues" = None ->
          dict_get d "_compliance_score" = None ->
          d' = d ++ [ ("_compliance_issues", PList (map issue_value issues));
                      ("_compliance_score", PStr (get_compliance_score issues)) ])) /\
    (forall vs vs',
       enrich_all rt category vs [] = Ok vs' ->
       List.length vs' = List.length vs /\
       Forall2 (fun v v' => enrich_variant rt category v = Ok v') vs vs').
Proof.
  intros rt category. split.
  - intros d issues. eexists. split; [reflexivity|]. fold issues.
    split; [|split; [|split]].
    + rewrite dict_get_set_other by discriminate. apply dict_get_set_same.
    + apply dict_get_set_same.
    + intros k Hi Hs. rewrite !dict_get_set_other by assumption. reflexivity.
    + intros Hi Hs.
      rewrite (@dict_set_absent _ (dict_set d "_compliance_issues" _) "_compliance_score").
      * rewrite (@dict_set_absent _ d "_compliance_issues" _ Hi), <- app_assoc.
        reflexivity.
      * rewrite dict_get_set_other by discriminate. exact Hs.
  - intros vs vs' H. apply enrich_all_acc in H. destruct H as (out & -> & HF).
    simpl. split; [|exact HF].
    symmetry. eapply Forall2_length. exact HF.
Qed.

Lemma enrichment_frame_witness :
  enrich_variant demo_runtime "Skincare" demo_variant =
  Ok (PDict [ ("label", PStr "Variant A"); ("headline", PStr "Glow on");
              ("body", PStr "A serum that supports radiance"); ("cta", PStr "Shop now");
              ("hashtags", PList [PStr "glow"]); ("complianceNotes", PStr "none");
              ("_compliance_issues",
               PList [PDict [ ("rule", PStr "FDA disclaimer required for structure/function claims");
                              ("severity", PStr "info");
                              ("matches", PList [PStr "supports"]) ]]);
              ("_compliance_score", PStr "Minor Notes") ]).
Proof.
  destruct (proj1 (enrichment_frame demo_runtime "Skincare")
              [ ("label", PStr "Variant A"); ("headline", PStr "Glow on");
                ("body", PStr "A serum that supports radiance"); ("cta", PStr "Shop now");
                ("hashtags", PList [PStr "glow"]); ("complianceNotes", PStr "none") ])
    as (d' & Henrich & _ & _ & _ & Hnew).
  unfold demo_variant. rewrite Henrich, Hnew by reflexivity.
  vm_compute. reflexivity.
Defined.

End OrchestratorSpec.

(* ================================================================== *)
(** * More on the evaluator *)

Module EvaluatorMore.
Import Py Catalog Evaluator PyFacts EvaluatorSpec.

(** Whether a pattern can match the empty string. *)
Fixpoint nullable (r : Re.regex) : bool :=
  match r with
  | Re.Eps | Re.WordB | Re.Opt _ => true
  | Re.Chr _ _ | Re.Cls _ _ => false
  | Re.Seq a b => nullable a && nullable b
  | Re.Alt a b => nullable a || nullable b
  | Re.Group a => nullable a
  end.

(** Whether every character test of a pattern ignores case. *)
Fixpoint all_ignorecase (r : Re.regex) : bool :=
  match r with
  | Re.Chr ic _ | Re.Cls ic _ => ic
  | Re.Opt a | Re.Group a => all_ignorecase a
  | Re.Seq a b | Re.Alt a b => all_ignorecase a && all_ignorecase b
  | Re.Eps | Re.WordB => true
  end.

(** The order of the verdicts. *)
Definition rank (verdict : string) : nat :=
  if String.eqb verdict "Needs Review" then 3
  else if String.eqb verdict "Caution" then 2
  else if String.eqb verdict "Minor Notes" then 1
  else 0.

(** Two texts that differ at most in the case of their letters. *)
Definition same_up_to_case (text1 text2 : string) : Prop :=
  Forall2 (fun a b => Chars.lower a = Chars.lower b)
          (list_ascii_of_string text1) (list_ascii_of_string text2).

Definition flagged (issues : list issue) : list (string * string) :=
  map (fun i => (issue_rule i, issue_severity i)) issues.

(** ** Facts about the catalogue, by evaluation *)

Lemma catalogue_rule :
  forall (P : rule -> bool),
    forallb (fun e => forallb P (snd e)) COMPLIANCE_RULES = true ->
    forall category r, In r (rules_for category) -> P r = true.
Proof.
  intros P Hall category r Hr. unfold rules_for, dict_get_default in Hr.
  destruct (dict_get COMPLIANCE_RULES category) as [rules|] eqn:E; [|contradiction].
  apply dict_get_In in E. rewrite forallb_forall in Hall.
  specialize (Hall _ E). simpl in Hall. rewrite forallb_forall in Hall. auto.
Qed.

Lemma rules_not_nullable :
  forall category r, In r (rules_for category) -> nullable (rule_regex r) = false.
Proof.
  intros category r Hr.
  apply (catalogue_rule (fun r => negb (nullable (rule_regex r)))) in Hr;
    [|vm_compute; reflexivity].
  destruct (nullable (rule_regex r)); [discriminate|reflexivity].
Qed.

Lemma rules_ignorecase :
  forall category r, In r (rules_for category) -> all_ignorecase (rule_regex r) = true.
Proof.
  intros category r Hr.
  exact (catalogue_rule (fun r => all_ignorecase (rule_regex r)) eq_refl _ _ Hr).
Qed.

Lemma rules_severity :
  forall category r, In r (rules_for category) ->
    rule_severity r = "critical" \/ rule_severity r = "warning" \/ rule_severity r = "info".
Proof.
  intros category r Hr.
  apply (catalogue_rule
           (fun r => String.eqb (rule_severity r) "critical"
                     || String.eqb (rule_severity r) "warning"
                     || String.eqb (rule_severity r) "info")) in Hr;
    [|vm_compute; reflexivity].
  apply orb_true_iff in Hr. destruct Hr as [Hr|Hr].
  - apply orb_true_iff in Hr. destruct Hr as [Hr|Hr]; apply String.eqb_eq in Hr; auto.
  - apply String.eqb_eq in Hr. auto.
Qed.

Lemma rules_silent_on_empty :
  forall category r, In r (rules_for category) -> Re.findall (rule_regex r) "" = [].
Proof.
  intros category r Hr.
  apply (catalogue_rule
           (fun r => match Re.findall (rule_regex r) "" with [] => true | _ => false end))
    in Hr; [|vm_compute; reflexivity].
  destruct (Re.findall (rule_regex r) ""); [reflexivity|discriminate].
Qed.

Lemma nullable_false_advances :
  forall t r i j, Re.matches t r i j -> nullable r = false -> i < j.
Proof.
  induction 1; simpl; intros Hn; try discriminate; try lia; auto.
  - apply andb_false_iff in Hn.
    pose proof (ReFacts.matches_forward H). pose proof (ReFacts.matches_forward H0).
    destruct Hn as [Hn|Hn]; [specialize (IHmatches1 Hn)|specialize (IHmatches2 Hn)]; lia.
  - apply orb_false_iff in Hn. tauto.
  - apply orb_false_iff in Hn. tauto.
Qed.

Lemma finditer_from_inside :
  forall r t fuel pos adv s e cap,
    In (s, (e, cap)) (Re.finditer_from r t fuel pos adv) -> s <= List.length t.
Proof.
  intros r t fuel; induction fuel as [|fuel IH]; intros pos adv s e cap H; simpl in H.
  - contradiction.
  - destruct (List.length t <? pos) eqn:Hlt; [contradiction|].
    apply Nat.ltb_ge in Hlt.
    destruct (Re.search r t (List.length t - pos) pos adv) as [[s' [e' cap']]|] eqn:Hs;
      [|contradiction].
    destruct H as [H|H].
    + injection H as -> -> ->. apply ReFacts.search_found in Hs. lia.
    + eauto.
Qed.

(** ** Texts that differ in case *)

Section Case.
Variables t1 t2 : list ascii.
Hypothesis Hcase : Forall2 (fun a b => Chars.lower a = Chars.lower b) t1 t2.

Lemma nth_error_case :
  forall i,
    match nth_error t1 i, nth_error t2 i with
    | Some x, Some y => Chars.lower x = Chars.lower y
    | None, None => True
    | _, _ => False
    end.
Proof.
  revert Hcase. generalize t1 t2. clear t1 t2.
  induction 1 as [|x y l1 l2 Hxy _ IH]; intros [|i]; simpl; auto.
  apply IH.
Qed.

Lemma word_at_case : forall i, Re.word_at t1 i = Re.word_at t2 i.
Proof.
  intros i. unfold Re.word_at. pose proof (nth_error_case i) as H.
  destruct (nth_error t1 i) as [x|], (nth_error t2 i) as [y|]; try contradiction; auto.
  rewrite <- (is_word_lower x), <- (is_word_lower y), H. reflexivity.
Qed.

Lemma at_boundary_case : forall i, Re.at_boundary t1 i = Re.at_boundary t2 i.
Proof.
  intros i. unfold Re.at_boundary, Re.word_before.
  rewrite word_at_case. destruct i; [reflexivity|]. rewrite word_at_case. reflexivity.
Qed.

Lemma rmatch_case :
  forall r, all_ignorecase r = true ->
    forall i cap k1 k2,
      (forall j c, k1 j c = k2 j c) ->
      Re.rmatch r t1 i cap k1 = Re.rmatch r t2 i cap k2.
Proof.
  induction r as [| ic c | ic cs | a IHa | a IHa b IHb | a IHa b IHb | | a IHa];
    simpl; intros Hic i cap k1 k2 Hk; auto.
  - subst ic. pose proof (nth_error_case i) as H.
    destruct (nth_error t1 i) as [x|], (nth_error t2 i) as [y|]; try contradiction; auto.
    simpl. unfold Chars.ci_eqb. rewrite H. destruct (Ascii.eqb _ _); auto.
  - subst ic. pose proof (nth_error_case i) as H.
    destruct (nth_error t1 i) as [x|], (nth_error t2 i) as [y|]; try contradiction; auto.
    assert (existsb (Re.char_eqb true x) cs = existsb (Re.char_eqb true y) cs) as ->.
    { clear -H. induction cs as [|c cs IH]; simpl; [reflexivity|].
      unfold Chars.ci_eqb. rewrite H, IH. reflexivity. }
    destruct (existsb _ cs); auto.
  - rewrite (IHa Hic i cap k1 k2 Hk), Hk. reflexivity.
  - apply andb_true_iff in Hic. destruct Hic as [Ha Hb].
    apply IHa; auto.
  - apply andb_true_iff in Hic. destruct Hic as [Ha Hb].
    rewrite (IHa Ha i cap k1 k2 Hk), (IHb Hb i cap k1 k2 Hk). reflexivity.
  - rewrite at_boundary_case, Hk. reflexivity.
Qed.

Lemma search_case :
  forall r, all_ignorecase r = true ->
    forall n pos adv, Re.search r t1 n pos adv = Re.search r t2 n pos adv.
Proof.
  intros r Hic n; induction n as [|n IH]; intros pos adv; simpl; unfold Re.match_at;
    rewrite (rmatch_case r Hic pos None (Re.accept pos adv) (Re.accept pos adv))
      by reflexivity.
  - reflexivity.
  - rewrite IH. reflexivity.
Qed.

Lemma finditer_from_case :
  forall r, all_ignorecase r = true ->
    forall fuel pos adv,
      Re.finditer_from r t1 fuel pos adv = Re.finditer_from r t2 fuel pos adv.
Proof.
  intros r Hic.
  assert (List.length t1 = List.length t2) as Hlen by (eapply Forall2_length; eauto).
  intros fuel; induction fuel as [|fuel IH]; intros pos adv; simpl; [reflexivity|].
  rewrite Hlen, (search_case r Hic).
  destruct (List.length t2 <? pos); [reflexivity|].
  destruct (Re.search r t2 (List.length t2 - pos) pos adv) as [[s [e cap]]|];
    [|reflexivity].
  rewrite IH. reflexivity.
Qed.

Lemma finditer_case :
  forall r, all_ignorecase r = true -> Re.finditer r t1 = Re.finditer r t2.
Proof.
  intros r Hic. unfold Re.finditer.
  rewrite (Forall2_length Hcase). apply finditer_from_case. exact Hic.
Qed.

End Case.

Lemma fires_finditer :
  forall text r,
    fires text r =
    match Re.finditer (rule_regex r) (list_ascii_of_string text) with
    | [] => false
    | _ :: _ => true
    end.
Proof.
  intros text r. unfold fires, Re.findall.
  destruct (Re.finditer (rule_regex r) (list_ascii_of_string text)); reflexivity.
Qed.

Lemma score_of_flagged :
  forall a b, flagged a = flagged b -> get_compliance_score a = get_compliance_score b.
Proof.
  intros a b H. unfold get_compliance_score.
  assert (map issue_severity a = map issue_severity b) as ->; [|reflexivity].
  unfold flagged in H. apply (f_equal (map snd)) in H. rewrite !map_map in H. exact H.
Qed.

(** X1: the empty text has no issue in any category, and no text has an
    issue in a category the catalogue does not know; the verdict is then
    Compliant. *)
Theorem no_issues_on_empty_or_unknown :
  forall rt,
    (forall category,
       check_compliance rt "" category = [] /\
       get_compliance_score (check_compliance rt "" category) = "Compliant") /\
    (forall text category,
       dict_get COMPLIANCE_RULES category = None ->
       check_compliance rt text category = [] /\
       get_compliance_score (check_compliance rt text category) = "Compliant").
Proof.
  intros rt. split.
  - intros category.
    assert (check_compliance rt "" category = []) as E.
    { rewrite check_compliance_filter.
      assert (forall r, In r (rules_for category) -> fires "" r = false) as Hq.
      { intros r Hr. unfold fires. rewrite (rules_silent_on_empty _ _ Hr). reflexivity. }
      induction (rules_for category) as [|r rules IH]; simpl; [reflexivity|].
      rewrite (Hq r (or_introl eq_refl)). apply IH. intros r' Hr'. apply Hq. right; auto. }
    rewrite E. split; reflexivity.
  - intros text category Hc.
    assert (check_compliance rt text category = []) as E.
    { unfold check_compliance, rules_for, dict_get_default. rewrite Hc. reflexivity. }
    rewrite E. split; reflexivity.
Qed.

Lemma no_issues_on_empty_or_unknown_witness :
  check_compliance plain_runtime "This will cure anything, guaranteed" "Pet Care" = [].
Proof.
  refine (proj1 (proj2 (no_issues_on_empty_or_unknown plain_runtime) _ "Pet Care" _)).
  reflexivity.
Defined.

(** X2: on what [check_compliance] returns, the verdict is Compliant
    exactly when there is no issue. *)
Theorem compliant_iff_no_issues :
  forall rt text category,
    get_compliance_score (check_compliance rt text category) = "Compliant" <->
    check_compliance rt text category = [].
Proof.
  intros rt text category. split; [|intros ->; reflexivity].
  rewrite check_compliance_filter.
  destruct (filter (fires text) (rules_for category)) as [|r fired] eqn:Hf;
    [reflexivity|].
  assert (In r (rules_for category)) as Hr.
  { assert (In r (filter (fires text) (rules_for category))) as Hin
      by (rewrite Hf; left; reflexivity).
    apply filter_In in Hin. tauto. }
  intros Hs. exfalso. revert Hs.
  unfold get_compliance_score, in_set. simpl.
  destruct (rules_severity _ _ Hr) as [ -> | [ -> | -> ] ]; simpl.
  - discriminate.
  - destruct (existsb _ _); discriminate.
  - destruct (existsb _ _); [discriminate|].
    destruct (existsb _ _); discriminate.
Qed.

Lemma rank_score :
  forall issues,
    rank (get_compliance_score issues) =
    if in_set "critical" (map issue_severity issues) then 3
    else if in_set "warning" (map issue_severity issues) then 2
    else if in_set "info" (map issue_severity issues) then 1
    else 0.
Proof.
  intros issues. unfold get_compliance_score.
  destruct (in_set "critical" _); [reflexivity|].
  destruct (in_set "warning" _); [reflexivity|].
  destruct (in_set "info" _); reflexivity.
Qed.

(** X3: the verdict of two issue lists put together is the worse of their
    verdicts; more issues never give a better verdict. *)
Theorem verdict_of_union :
  forall a b,
    rank (get_compliance_score (a ++ b)) =
    Nat.max (rank (get_compliance_score a)) (rank (get_compliance_score b)).
Proof.
  intros a b. rewrite !rank_score. unfold in_set. rewrite map_app, !existsb_app.
  destruct (existsb (String.eqb "critical") (map issue_severity a)),
           (existsb (String.eqb "critical") (map issue_severity b)),
           (existsb (String.eqb "warning") (map issue_severity a)),
           (existsb (String.eqb "warning") (map issue_severity b)),
           (existsb (String.eqb "info") (map issue_severity a)),
           (existsb (String.eqb "info") (map issue_severity b)); reflexivity.
Qed.

(** X4: every matched term of every issue is a non-empty piece of the
    evaluated text, in the case it has there, that begins and ends at a
    word boundary. *)
Theorem matched_terms_from_text :
  forall rt, set_ok rt ->
    forall text category i x,
      In i (check_compliance rt text category) ->
      In x (issue_matches i) ->
      exists s e,
        s < e /\ e <= List.length (list_ascii_of_string text) /\
        x = Re.slice (list_ascii_of_string text) s e /\
        Re.at_boundary (list_ascii_of_string text) s = true /\
        Re.at_boundary (list_ascii_of_string text) e = true.
Proof.
  intros rt Hset text category i x Hi Hx.
  rewrite check_compliance_filter in Hi. apply in_map_iff in Hi.
  destruct Hi as (r & <- & Hr). apply filter_In in Hr. destruct Hr as [Hr _].
  simpl in Hx. apply (proj1 (sorted_set_In Hset _ _)) in Hx.
  unfold Re.findall in Hx. apply in_map_iff in Hx.
  destruct Hx as ([s [e cap]] & <- & Hm).
  pose proof (finditer_from_inside _ _ _ _ _ _ _ _ Hm) as Hs.
  pose proof (rules_not_nullable _ _ Hr) as Hnn.
  destruct (anchored_shape _ (rules_anchored _ _ Hr)) as (g & Hg).
  rewrite Hg in *.
  apply ReFacts.finditer_match in Hm. destruct Hm as (adv & Hm).
  pose proof (ReFacts.match_at_span _ _ _ _ Hm) as (Hmt & _ & _).
  apply ReFacts.anchored_match in Hm. destruct Hm as (Hbs & Hbe & _ & ->).
  exists s, e. repeat split; auto.
  - eapply nullable_false_advances; eauto.
  - eapply ReFacts.matches_in_text; eauto.
Qed.

Lemma matched_terms_from_text_witness :
  exists s e,
    s < e /\ e <= 17 /\
    "Cure" = Re.slice (list_ascii_of_string "This will Cure it") s e /\
    Re.at_boundary (list_ascii_of_string "This will Cure it") s = true /\
    Re.at_boundary (list_ascii_of_string "This will Cure it") e = true.
Proof.
  refine (matched_terms_from_text plain_runtime_ok "This will Cure it" "Skincare"
            (mkIssue "No disease treatment claims" "critical" ["Cure"]) "Cure" _ _).
  - vm_compute. left. reflexivity.
  - left. reflexivity.
Defined.

(** X5: two texts that differ only in the case of their letters get the
    same rules flagged, with the same severities, and the same verdict. *)
Theorem verdict_ignores_case :
  forall rt text1 text2 category,
    same_up_to_case text1 text2 ->
    flagged (check_compliance rt text1 category) =
    flagged (check_compliance rt text2 category) /\
    get_compliance_score (check_compliance rt text1 category) =
    get_compliance_score (check_compliance rt text2 category).
Proof.
  intros rt text1 text2 category Hcase.
  assert (flagged (check_compliance rt text1 category) =
          flagged (check_compliance rt text2 category)) as E.
  { rewrite !check_compliance_filter. unfold flagged. rewrite !map_map. simpl.
    assert (forall r, In r (rules_for category) -> fires text1 r = fires text2 r) as Hf.
    { intros r Hr. rewrite !fires_finditer.
      rewrite (finditer_case Hcase _ (rules_ignorecase _ _ Hr)). reflexivity. }
    rewrite (filter_ext_in _ _ _ Hf). reflexivity. }
  split; [exact E|apply score_of_flagged, E].
Qed.

Lemma verdict_ignores_case_witness :
  get_compliance_score
    (check_compliance plain_runtime "GUARANTEED to Heal" "Skincare") =
  get_compliance_score
    (check_compliance plain_runtime "guaranteed to heal" "Skincare").
Proof.
  refine (proj2 (@verdict_ignores_case plain_runtime "GUARANTEED to Heal"
                   "guaranteed to heal" "Skincare" _)).
  unfold same_up_to_case. simpl. repeat constructor.
Defined.

End EvaluatorMore.

(* ================================================================== *)
(** * More on the generation client *)

Module ClientMore.
Import Py Catalog Data Client.

(** Line 349: [data["choices"][0]["message"]["content"]]. *)
Definition reply_content (data : pyval) : result pyval :=
  bind (getitem data "choices") (fun choices =>
  bind (getitem0 choices) (fun choice =>
  bind (getitem choice "message") (fun message =>
  getitem message "content"))).

(** A reply fragment as the service sends it. *)
Definition fragment (text : string) : pyval :=
  PDict [("type", PStr "text"); ("text", PStr text)].

Definition key_missing (w : world) : bool := String.eqb (strip (api_key w)) "".

Definition with_request (w : world) (pl : payload) : world :=
  mkWorld (api_key w) (net w) (sent w ++ [pl]).

Lemma generate_for_channel_reply :
  forall rt p ch tone season num_variants custom_prompt model w pl,
    build_payload p ch tone season num_variants custom_prompt model = Ok pl ->
    generate_for_channel rt p ch tone season num_variants custom_prompt model w =
    (bind (fst (openai_chat_completion rt pl w)) (fun data =>
     bind (reply_content data) (fun content =>
     bind (content_text content) (parse_variants rt))),
     snd (openai_chat_completion rt pl w)).
Proof.
  intros rt p ch tone season num_variants custom_prompt model w pl Hpl.
  unfold generate_for_channel. rewrite Hpl.
  destruct (openai_chat_completion rt pl w) as [[data|e] w']; simpl; [|reflexivity].
  unfold reply_content.
  destruct (getitem data "choices") as [choices|]; simpl; [|reflexivity].
  destruct (getitem0 choices) as [choice|]; simpl; [|reflexivity].
  destruct (getitem choice "message") as [message|]; simpl; [|reflexivity].
  reflexivity.
Qed.

Lemma openai_world :
  forall rt pl w,
    snd (openai_chat_completion rt pl w) =
    if key_missing w then w else with_request w pl.
Proof.
  intros rt pl w. unfold openai_chat_completion, key_missing, with_request.
  destruct (String.eqb (strip (api_key w)) ""); [reflexivity|].
  destruct (net w (List.length (sent w))) as [body|code body|reason|e]; simpl.
  - destruct (json_loads rt body); reflexivity.
  - destruct (http_error_message rt body); reflexivity.
  - reflexivity.
  - reflexivity.
Qed.

(** X6: a call without an API key - unset, empty or blank - raises the
    "OPENAI_API_KEY is missing" error and sends nothing; any other call
    sends exactly its one request, after those already sent, whatever the
    outcome.  The key and the service are never changed. *)
Theorem request_accounting :
  forall rt pl w,
    api_key (snd (openai_chat_completion rt pl w)) = api_key w /\
    net (snd (openai_chat_completion rt pl w)) = net w /\
    (key_missing w = true ->
     openai_chat_completion rt pl w =
     (Raise (RuntimeError "OPENAI_API_KEY is missing. Add it in .env or your shell environment."), w)) /\
    (key_missing w = false ->
     sent (snd (openai_chat_completion rt pl w)) = sent w ++ [pl]).
Proof.
  intros rt pl w. rewrite openai_world. unfold with_request.
  destruct (key_missing w) eqn:Hk; simpl; repeat split; try discriminate; auto.
  intros _. unfold openai_chat_completion. unfold key_missing in Hk. rewrite Hk.
  reflexivity.
Qed.

Lemma request_accounting_witness :
  openai_chat_completion EvaluatorSpec.plain_runtime
    (mkPayload "gpt-4o-mini" 1200 "system" "user")
    (mkWorld "   " (fun _ => NetBody "{}") []) =
  (Raise (RuntimeError "OPENAI_API_KEY is missing. Add it in .env or your shell environment."),
   mkWorld "   " (fun _ => NetBody "{}") []).
Proof.
  refine (proj1 (proj2 (proj2 (request_accounting _ _ _))) _). reflexivity.
Defined.

Lemma completion_ok :
  forall rt pl w data,
    fst (openai_chat_completion rt pl w) = Ok data <->
    key_missing w = false /\
    exists body,
      net w (List.length (sent w)) = NetBody body /\ json_loads rt body = Some data.
Proof.
  intros rt pl w data. unfold openai_chat_completion, key_missing.
  destruct (String.eqb (strip (api_key w)) "").
  - simpl. split; [discriminate|]. intros [H _]. discriminate.
  - destruct (net w (List.length (sent w))) as [body|code body|reason|e]; simpl.
    + destruct (json_loads rt body) as [d|] eqn:Hj; simpl.
      * split.
        -- intros H. injection H as <-. split; [reflexivity|]. exists body. auto.
        -- intros [_ (b & Hb & Hd)]. injection Hb as <-. congruence.
      * split; [discriminate|].
        intros [_ (b & Hb & Hd)]. injection Hb as <-. congruence.
    + split.
      * destruct (http_error_message rt body); discriminate.
      * intros [_ (b & Hb & _)]. discriminate.
    + split; [discriminate|]. intros [_ (b & Hb & _)]. discriminate.
    + split; [discriminate|]. intros [_ (b & Hb & _)]. discriminate.
Qed.

(** X7: the call returns data exactly when there is a key, the service
    answers the request with a body, and the body parses; the data is the
    parsed body. *)
Theorem completion_succeeds_iff :
  forall rt pl w data,
    fst (openai_chat_completion rt pl w) = Ok data <->
    key_missing w = false /\
    exists body,
      net w (List.length (sent w)) = NetBody body /\ json_loads rt body = Some data.
Proof. exact completion_ok. Qed.



Lemma completion_succeeds_iff_witness :
  fst (openai_chat_completion OrchestratorSpec.demo_runtime
         (mkPayload "gpt-4o-mini" 1200 "system" "user")
         (OrchestratorSpec.demo_world "body:no-variants")) =
  Ok (OrchestratorSpec.reply_with "no-variants").
Proof.
  apply (proj2 (completion_succeeds_iff _ _ _ _)).
  split; [reflexivity|]. exists "body:no-variants". split; reflexivity.
Defined.

(** X9: for a product with a known brand, when there is a key, the service
    answers with a body that parses to data whose
    [choices[0].message.content] is a text, and that text, with its fences
    stripped, parses to an object whose [variants] is a list, the call
    returns that list and has sent exactly the composed request. *)
Theorem generation_succeeds :
  forall rt p ch tone season num_variants custom_prompt model w pl body data content
         parsed vs,
    build_payload p ch tone season num_variants custom_prompt model = Ok pl ->
    key_missing w = false ->
    net w (List.length (sent w)) = NetBody body ->
    json_loads rt body = Some data ->
    reply_content data = Ok (PStr content) ->
    json_loads rt (strip_json_fence content) = Some (PDict parsed) ->
    dict_get parsed "variants" = Some (PList vs) ->
    generate_for_channel rt p ch tone season num_variants custom_prompt model w =
    (Ok vs, with_request w pl).
Proof.
  intros rt p ch tone season num_variants custom_prompt model w pl body data content
         parsed vs Hpl Hk Hnet Hbody Hcontent Hparsed Hvs.
  rewrite generate_for_channel_reply with (pl := pl) by exact Hpl.
  rewrite openai_world, Hk.
  rewrite (proj2 (completion_ok rt pl w data)) by eauto.
  simpl. rewrite Hcontent. simpl. unfold parse_variants, dict_get_default.
  rewrite Hparsed, Hvs. reflexivity.
Qed.

Lemma generation_succeeds_witness :
  generate_for_channel OrchestratorSpec.demo_runtime OrchestratorSpec.serum
    OrchestratorSpec.instagram "Playful" "General" 2 "" "gpt-4o-mini"
    (OrchestratorSpec.demo_world "body:variants") =
  (Ok [OrchestratorSpec.demo_variant],
   mkWorld "sk-demo" (fun _ => NetBody "body:variants")
     [mkPayload "gpt-4o-mini" 1200
        (system_prompt OrchestratorSpec.serum
           (mkBrand "Sophisticated, science-backed yet approachable, empowering"
              ["Clean"; "Confident"; "Educational"; "Aspirational"]
              ["radiance"; "transform"; "clinical-grade"; "pure"; "glow"; "reveal"]
              ["cheap"; "miracle"; "cure"; "guaranteed results"; "anti-aging"]
              "Science Meets Nature")
           (rules_for "Skincare"))
        (user_prompt OrchestratorSpec.serum OrchestratorSpec.instagram "Playful"
           "General" 2 "")]).
Proof.
  refine (@generation_succeeds OrchestratorSpec.demo_runtime OrchestratorSpec.serum
            OrchestratorSpec.instagram "Playful" "General" 2%Z "" "gpt-4o-mini"
            (OrchestratorSpec.demo_world "body:variants") _ "body:variants"
            (OrchestratorSpec.reply_with "```json variants ```") "```json variants ```"
            [("variants", PList [OrchestratorSpec.demo_variant])]
            [OrchestratorSpec.demo_variant] _ _ _ _ _ _ _); reflexivity.
Defined.

Lemma append_empty_r : forall s, s +++ "" = s.
Proof. induction s as [|c s IH]; simpl; [reflexivity|]. rewrite IH. reflexivity. Qed.

Lemma join_values_app :
  forall a b,
    join_values (a ++ b) =
    bind (join_values a) (fun x => bind (join_values b) (fun y => Ok (x +++ y))).
Proof.
  induction a as [|v a IH]; intros b; simpl.
  - destruct (join_values b); reflexivity.
  - destruct v; try reflexivity. rewrite IH.
    destruct (join_values a) as [x|]; simpl; [|reflexivity].
    destruct (join_values b) as [y|]; simpl; [|reflexivity].
    f_equal. clear. induction s as [|c s IHs]; simpl; [reflexivity|].
    rewrite IHs. reflexivity.
Qed.

Lemma fragment_texts_app :
  forall a b, fragment_texts (a ++ b) = fragment_texts a ++ fragment_texts b.
Proof.
  induction a as [|v a IH]; intros b; simpl; [reflexivity|].
  destruct v; rewrite ?IH; reflexivity.
Qed.

(** X10: a reply that comes as a sequence of fragments is read as the
    texts of the fragments put together in order; an item that is not an
    object, and an object without a [text], add nothing. *)
Theorem fragments_concatenated :
  (forall texts, content_text (PList (map fragment texts)) = Ok (String.concat "" texts)) /\
  (forall before v after,
     is_dict v = false ->
     content_text (PList (before ++ v :: after)) = content_text (PList (before ++ after))) /\
  (forall before d after,
     dict_get d "text" = None ->
     content_text (PList (before ++ PDict d :: after)) =
     content_text (PList (before ++ after))).
Proof.
  split; [|split].
  - intros texts. unfold content_text.
    induction texts as [|s texts IH]; [reflexivity|].
    change (fragment_texts (map fragment (s :: texts)))
      with (PStr s :: fragment_texts (map fragment texts)).
    cbn [join_values]. rewrite IH. cbn [bind]. f_equal.
    destruct texts as [|s' texts]; cbn [String.concat].
    + apply append_empty_r.
    + reflexivity.
  - intros before v after Hv. simpl. rewrite !fragment_texts_app. simpl.
    destruct v; try reflexivity. discriminate.
  - intros before d after Hd. simpl. rewrite !fragment_texts_app. simpl.
    unfold dict_get_default. rewrite Hd, !join_values_app. simpl.
    destruct (join_values (fragment_texts before)); simpl; [|reflexivity].
    destruct (join_values (fragment_texts after)); reflexivity.
Qed.

Lemma fragments_concatenated_witness :
  content_text (PList [fragment "{"; PInt 7; fragment "}"]) =
  content_text (PList [fragment "{"; fragment "}"]).
Proof.
  refine (proj1 (proj2 fragments_concatenated) [fragment "{"] (PInt 7) [fragment "}"] _).
  reflexivity.
Defined.

End ClientMore.

(* ================================================================== *)
(** * More on the orchestrator *)

Module OrchestratorMore.
Import Py Catalog Evaluator Data Client Orchestrator OrchestratorSpec ClientMore.

Definition is_error (e : ui_event) : bool :=
  match e with
  | StError _ | StErrorOf _ => true
  | _ => false
  end.

(** An enriched variant: an object whose two system fields hold the
    issues and the verdict of its own headline, body and call to action. *)
Definition scored (rt : runtime) (category : string) (v : pyval) : Prop :=
  exists d,
    v = PDict d /\
    dict_get d "_compliance_issues" =
      Some (PList (map issue_value (check_compliance rt (variant_text rt d) category))) /\
    dict_get d "_compliance_score" =
      Some (PStr (get_compliance_score (check_compliance rt (variant_text rt d) category))).

Lemma generate_world :
  forall rt p ch tone season num_variants custom_prompt model w,
    let out := generate_for_channel rt p ch tone season num_variants custom_prompt model w in
    api_key (snd out) = api_key w /\ net (snd out) = net w /\
    exists more,
      sent (snd out) = sent w ++ more /\ List.length more <= 1 /\
      (forall vs, fst out = Ok vs -> List.length more = 1).
Proof.
  intros rt p ch tone season num_variants custom_prompt model w.
  destruct (build_payload p ch tone season num_variants custom_prompt model) as [pl|e] eqn:Hpl.
  - cbv zeta. rewrite generate_for_channel_reply with (pl := pl) by exact Hpl.
    cbn [fst snd]. rewrite openai_world.
    destruct (key_missing w) eqn:Hk.
    + repeat split. exists []. rewrite app_nil_r. repeat split; [simpl; lia|].
      intros vs Hvs. exfalso.
      destruct (fst (openai_chat_completion rt pl w)) as [data|e] eqn:Hd;
        [|discriminate].
      apply completion_ok in Hd. destruct Hd as [Hd _]. congruence.
    + repeat split. exists [pl]. repeat split; simpl; lia.
  - cbv zeta. unfold generate_for_channel. rewrite Hpl. cbn [fst snd].
    repeat split. exists []. rewrite app_nil_r. repeat split; [simpl; lia|discriminate].
Qed.

Section Loop.
Variable rt : runtime.
Variable p : product.
Variables tone season : string.
Variable num_variants : Z.
Variables custom_prompt model : string.
Variable total : nat.

Let loop := channel_loop rt p tone season num_variants custom_prompt model total.

(** What a loop leaves behind: the key and the service as they were, the
    requests and the page output only extended. *)
Lemma channel_loop_effects :
  forall todo i results ui w r ui' w',
    loop todo i results ui w = (r, ui', w') ->
    api_key w' = api_key w /\ net w' = net w /\
    (exists shown_more, ui' = ui ++ shown_more) /\
    exists more,
      sent w' = sent w ++ more /\ List.length more <= List.length todo /\
      (forall rs, r = Ok rs -> List.length more = List.length todo).
Proof.
  unfold loop.
  intros todo; induction todo as [|ch todo IH]; intros i results ui w r ui' w' H;
    simpl in H.
  - injection H as <- <- <-. repeat split.
    + exists []. rewrite app_nil_r. reflexivity.
    + exists []. rewrite app_nil_r. repeat split; simpl; lia.
  - pose proof (generate_world rt p ch tone season num_variants custom_prompt model w)
      as Hw. cbv zeta in Hw.
    destruct (generate_for_channel rt p ch tone season num_variants custom_prompt model w)
      as [generated w1].
    cbn [fst snd] in Hw. destruct Hw as (Hk & Hn & more1 & Hs & Hl & Hok).
    destruct (bind generated (fun vs => enrich_all rt (p_category p) vs []))
      as [enriched|e] eqn:Hb.
    + destruct generated as [vs|]; [|discriminate].
      apply IH in H. destruct H as (Hk' & Hn' & (sm & Hsm) & more & Hs' & Hl' & Hok').
      repeat split; try congruence.
      * exists ([StatusWrite (generating ch i total)] ++ [Progress i total] ++ sm).
        rewrite Hsm, <- !app_assoc. reflexivity.
      * exists (more1 ++ more). rewrite Hs', Hs, <- app_assoc.
        specialize (Hok vs eq_refl).
        repeat split; rewrite ?length_app; simpl; try lia.
        intros rs Hrs. specialize (Hok' rs Hrs). lia.
    + injection H as <- <- <-. repeat split; auto.
      * eexists. reflexivity.
      * exists more1. repeat split; auto; [simpl; lia|discriminate].
Qed.

Lemma variant_text_enriched :
  forall d x y,
    variant_text rt (dict_set (dict_set d "_compliance_issues" x) "_compliance_score" y)
    = variant_text rt d.
Proof.
  intros d x y. unfold variant_text, dict_get_default.
  rewrite !dict_get_set_other by discriminate. reflexivity.
Qed.

Lemma enrich_variant_scored :
  forall category v v',
    enrich_variant rt category v = Ok v' -> scored rt category v'.
Proof.
  intros category v v' H. destruct v as [| | | |l|d]; try discriminate.
  simpl in H. injection H as <-. eexists. split; [reflexivity|].
  rewrite variant_text_enriched. split.
  - rewrite dict_get_set_other by discriminate. apply dict_get_set_same.
  - apply dict_get_set_same.
Qed.

Lemma channel_loop_scored :
  forall todo i results ui w rs ui' w',
    Forall (fun r => Forall (scored rt (p_category p)) (variants r)) results ->
    loop todo i results ui w = (Ok rs, ui', w') ->
    Forall (fun r => Forall (scored rt (p_category p)) (variants r)) rs.
Proof.
  unfold loop.
  intros todo; induction todo as [|ch todo IH]; intros i results ui w rs ui' w' Hres H;
    simpl in H.
  - injection H as <- _ _. exact Hres.
  - destruct (generate_for_channel rt p ch tone season num_variants custom_prompt model w)
      as [generated w1].
    destruct (bind generated (fun vs => enrich_all rt (p_category p) vs []))
      as [enriched|e] eqn:Hb; [|discriminate].
    destruct generated as [vs|]; [|discriminate]. simpl in Hb.
    apply enrich_all_acc in Hb. destruct Hb as (out & -> & HF). simpl in H.
    apply IH in H; [exact H|].
    apply Forall_app. split; [exact Hres|]. constructor; [|constructor]. simpl.
    clear -HF. induction HF as [|v v' vs vs' Hv _ IHF]; constructor; auto.
    eapply enrich_variant_scored; eauto.
Qed.

End Loop.

(** X11: a run sends at most one request per selected channel, after
    those already sent, and exactly one per channel when it completes; it
    never changes the API key. *)
Theorem requests_per_run :
  forall rt p labels tone season num_variants custom_prompt model pg pg',
    main_generate rt p labels tone season num_variants custom_prompt model pg = Ok pg' ->
    api_key (the_world pg') = api_key (the_world pg) /\
    exists more,
      sent (the_world pg') = sent (the_world pg) ++ more /\
      List.length more <= List.length labels /\
      (completed pg' -> List.length more = List.length labels).
Proof.
  intros rt p labels tone season num_variants custom_prompt model pg pg' Hrun.
  unfold main_generate in Hrun.
  destruct labels as [|l labels].
  - injection Hrun as <-. simpl. split; [reflexivity|].
    exists []. rewrite app_nil_r. repeat split; auto.
  - destruct (select_channels (l :: labels)) as [selected|e] eqn:Hsel; [|discriminate].
    assert (List.length selected = List.length (l :: labels)) as Hlen.
    { rewrite <- (select_channels_names _ Hsel). rewrite length_map. reflexivity. }
    destruct (channel_loop rt p tone season num_variants custom_prompt model
                (List.length selected) selected 1 [] (shown pg ++ [ProgressBar])
                (the_world pg)) as [[r ui] w] eqn:Hloop.
    apply channel_loop_effects in Hloop.
    destruct Hloop as (Hk & _ & _ & more & Hs & Hl & Hok).
    destruct r as [rs|err]; injection Hrun as <-; cbn [the_world].
    + split; [exact Hk|]. exists more. rewrite <- Hlen.
      split; [exact Hs|]. split; [exact Hl|]. intros _. apply (Hok rs eq_refl).
    + split; [exact Hk|]. exists more. rewrite <- Hlen.
      split; [exact Hs|]. split; [exact Hl|].
      intros (ui0 & Hui). simpl in Hui. apply app_inj_tail in Hui.
      destruct Hui as [_ Hui]. discriminate.
Qed.

Lemma requests_per_run_witness :
  match main_generate demo_runtime serum ["Email Campaign"; "SMS/WhatsApp"]
          "Playful" "General" 2 "" "gpt-4o-mini" (demo_page "body:variants") with
  | Ok pg' => exists more,
      sent (the_world pg') = [] ++ more /\ List.length more <= 2 /\
      (completed pg' -> List.length more = 2)
  | Raise _ => False
  end.
Proof.
  destruct (main_generate demo_runtime serum ["Email Campaign"; "SMS/WhatsApp"]
              "Playful" "General" 2 "" "gpt-4o-mini" (demo_page "body:variants"))
    as [pg'|e] eqn:Hrun.
  - exact (proj2 (requests_per_run _ _ _ _ _ _ _ _ _ Hrun)).
  - vm_compute in Hrun. discriminate.
Defined.

(** X12: a run only adds to what the page shows, and it ends in one of
    two ways: it completes, or its last output is an error and the stored
    results are the ones from before the run. *)
Theorem run_completes_or_keeps_results :
  forall rt p labels tone season num_variants custom_prompt model pg pg',
    main_generate rt p labels tone season num_variants custom_prompt model pg = Ok pg' ->
    (exists added, shown pg' = shown pg ++ added) /\
    (completed pg' \/
     (session_results pg' = session_results pg /\
      exists ui e, shown pg' = ui ++ [e] /\ is_error e = true)).
Proof.
  intros rt p labels tone season num_variants custom_prompt model pg pg' Hrun.
  unfold main_generate in Hrun.
  destruct labels as [|l labels].
  - injection Hrun as <-. simpl. split; [eexists; reflexivity|].
    right. split; [reflexivity|]. eexists _, _. split; reflexivity.
  - destruct (select_channels (l :: labels)) as [selected|e]; [|discriminate].
    destruct (channel_loop rt p tone season num_variants custom_prompt model
                (List.length selected) selected 1 [] (shown pg ++ [ProgressBar])
                (the_world pg)) as [[r ui] w] eqn:Hloop.
    apply channel_loop_effects in Hloop. destruct Hloop as (_ & _ & (sm & ->) & _).
    destruct r as [rs|err]; injection Hrun as <-; simpl.
    + split; [exists ([ProgressBar] ++ sm ++ [StatusSuccess "Generation complete."]);
               rewrite <- !app_assoc; reflexivity|].
      left. eexists. reflexivity.
    + split; [exists ([ProgressBar] ++ sm ++ [StErrorOf err]);
               rewrite <- !app_assoc; reflexivity|].
      right. split; [reflexivity|]. eexists _, _. split; reflexivity.
Qed.

Lemma run_completes_or_keeps_results_witness :
  match main_generate demo_runtime serum ["Instagram Post"]
          "Playful" "General" 2 "" "gpt-4o-mini" (demo_page "body:bad-variants") with
  | Ok pg' =>
      completed pg' \/
      (session_results pg' = [] /\ exists ui e, shown pg' = ui ++ [e] /\ is_error e = true)
  | Raise _ => False
  end.
Proof.
  destruct (main_generate demo_runtime serum ["Instagram Post"]
              "Playful" "General" 2 "" "gpt-4o-mini" (demo_page "body:bad-variants"))
    as [pg'|e] eqn:Hrun.
  - exact (proj2 (run_completes_or_keeps_results _ _ _ _ _ _ _ _ _ Hrun)).
  - vm_compute in Hrun. discriminate.
Defined.

Lemma completed_run_scored :
  forall rt p labels tone season num_variants custom_prompt model pg pg',
    main_generate rt p labels tone season num_variants custom_prompt model pg = Ok pg' ->
    completed pg' ->
    Forall (fun r => Forall (scored rt (p_category p)) (variants r)) (session_results pg').
Proof.
  intros rt p labels tone season num_variants custom_prompt model pg pg' Hrun Hdone.
  unfold main_generate in Hrun.
  destruct labels as [|l labels].
  - injection Hrun as <-. destruct Hdone as (ui & Hui). simpl in Hui.
    apply app_inj_tail in Hui. destruct Hui as [_ Hui]. discriminate.
  - destruct (select_channels (l :: labels)) as [selected|e]; [|discriminate].
    destruct (channel_loop rt p tone season num_variants custom_prompt model
                (List.length selected) selected 1 [] (shown pg ++ [ProgressBar])
                (the_world pg)) as [[[rs|err] ui] w] eqn:Hloop;
      injection Hrun as <-; simpl.
    + eapply channel_loop_scored; [|exact Hloop]. constructor.
    + destruct Hdone as (ui0 & Hui). simpl in Hui.
      apply app_inj_tail in Hui. destruct Hui as [_ Hui]. discriminate.
Qed.

(** X13: after a run that completes, every stored variant is an object
    whose [_compliance_issues] and [_compliance_score] are the issues and
    the verdict of that variant's own headline, body and call to action in
    the product's category. *)
Theorem stored_variants_scored :
  forall rt p labels tone season num_variants custom_prompt model pg pg',
    main_generate rt p labels tone season num_variants custom_prompt model pg = Ok pg' ->
    completed pg' ->
    Forall (fun r => Forall (scored rt (p_category p)) (variants r)) (session_results pg').
Proof.
  intros rt p labels tone season num_variants custom_prompt model pg pg' Hrun Hdone.
  eapply completed_run_scored; eauto.
Qed.

Lemma stored_variants_scored_witness :
  match main_generate demo_runtime serum ["Instagram Post"]
          "Playful" "General" 2 "" "gpt-4o-mini" (demo_page "body:variants") with
  | Ok pg' =>
      Forall (fun r => Forall (scored demo_runtime "Skincare") (variants r))
             (session_results pg')
  | Raise _ => False
  end.
Proof.
  destruct (main_generate demo_runtime serum ["Instagram Post"]
              "Playful" "General" 2 "" "gpt-4o-mini" (demo_page "body:variants"))
    as [pg'|e] eqn:Hrun.
  - refine (stored_variants_scored _ _ _ _ _ _ _ _ _ Hrun _).
    vm_compute in Hrun. injection Hrun as <-. unfold completed. simpl shown.
    match goal with |- exists ui, ?l = _ => exists (removelast l) end. reflexivity.
  - vm_compute in Hrun. discriminate.
Defined.

End OrchestratorMore.

(* ================================================================== *)
(** * The environment file: [load_env_file] *)

Module Env.
Import Py.

(** [os.environ] on a POSIX system. *)
Definition environ : Type := dict string.

Fixpoint lstrip_of (f : ascii -> bool) (t : list ascii) : list ascii :=
  match t with
  | c :: t' => if f c then lstrip_of f t' else t
  | [] => []
  end.

Definition strip_list (f : ascii -> bool) (t : list ascii) : list ascii :=
  rev (lstrip_of f (rev (lstrip_of f t))).

(** [s.strip()] with [f] as [Chars.is_space], [s.strip(chars)] with [f]
    the membership in [chars]. *)
Definition strip_of (f : ascii -> bool) (s : string) : string :=
  string_of_list_ascii (strip_list f (list_ascii_of_string s)).

Definition single_quote : ascii := "'"%char.
Definition double_quote : ascii := ascii_of_nat 34.
Definition equals_sign : ascii := "="%char.

(** [line.split("=", 1)] for a line that holds an ["="]. *)
Fixpoint split_eq (t : list ascii) : option (list ascii * list ascii) :=
  match t with
  | [] => None
  | c :: t' =>
      if Ascii.eqb c equals_sign then Some ([], t')
      else match split_eq t' with
           | Some (k, v) => Some (c :: k, v)
           | None => None
           end
  end.

(** The key and the value of one raw line, or [None] where the loop
    continues: a blank line, a comment, a line without ["="]. *)
Definition env_line (raw_line : string) : option (string * string) :=
  let line := strip_list Chars.is_space (list_ascii_of_string raw_line) in
  match line with
  | [] => None
  | c :: _ =>
      if Ascii.eqb c "#" then None
      else match split_eq line with
           | None => None
           | Some (key, value) =>
               let key := strip_list Chars.is_space key in
               let value :=
                 strip_list (Ascii.eqb double_quote)
                   (strip_list (Ascii.eqb single_quote)
                      (strip_list Chars.is_space value)) in
               Some (string_of_list_ascii key, string_of_list_ascii value)
           end
  end.

(** [key in os.environ]. *)
Definition dict_mem (env : environ) (key : string) : bool :=
  match dict_get env key with
  | Some _ => true
  | None => false
  end.

Definition has_nul (s : string) : bool :=
  existsb (Ascii.eqb Ascii.zero) (list_ascii_of_string s).

(** The body of the loop.  [os.environ[key] = value] refuses a NUL
    character with a [ValueError]. *)
Definition load_line (env : environ) (raw_line : string) : result environ :=
  match env_line raw_line with
  | None => Ok env
  | Some (key, value) =>
      if negb (String.eqb key "") && negb (dict_mem env key) then
        if has_nul key || has_nul value then Raise (OtherError "ValueError")
        else Ok (dict_set env key value)
      else Ok env
  end.

Fixpoint load_lines (env : environ) (lines : list string) : result environ :=
  match lines with
  | [] => Ok env
  | raw_line :: lines' => bind (load_line env raw_line) (fun env' => load_lines env' lines')
  end.

(** What the file system gives for the path: [NoFile] when
    [path.exists()] is false; [ReadFails e] when [path.exists()] or
    [path.read_text(encoding="utf-8")] raises [e] (a directory, a file that
    may not be read, bytes that are not UTF-8); [FileLines lines] with the
    lines of the decoded text as [splitlines] gives them. *)
Inductive file_read : Type :=
| NoFile
| ReadFails (e : exn)
| FileLines (lines : list string).

(** Nothing in the function catches an exception: one raised while the
    file is read leaves it as it is. *)
Definition load_env_file (file : file_read) (env : environ) : result environ :=
  match file with
  | NoFile => Ok env
  | ReadFails e => Raise e
  | FileLines lines => load_lines env lines
  end.

(** The assignments a file would make to an empty environment, in order. *)
Fixpoint assignments (lines : list string) : list (string * string) :=
  match lines with
  | [] => []
  | raw_line :: lines' =>
      match env_line raw_line with
      | Some (key, value) =>
          if String.eqb key "" then assignments lines' else (key, value) :: assignments lines'
      | None => assignments lines'
      end
  end.

End Env.

Module EnvSpec.
Import Py Env.

(** A list of characters that neither begins nor ends with a character
    of the class [f]. *)
Definition clean_ends (f : ascii -> bool) (t : list ascii) : Prop :=
  (forall c t', t = c :: t' -> f c = false) /\
  (forall c t', t = t' ++ [c] -> f c = false).

Lemma dict_get_app :
  forall (V : Type) (a b : dict V) k,
    dict_get (a ++ b) k =
    match dict_get a k with Some v => Some v | None => dict_get b k end.
Proof.
  intros V a b k; induction a as [|[k' v'] a IH]; simpl; [reflexivity|].
  destruct (String.eqb k' k); auto.
Qed.

Lemma assignments_cons :
  forall raw lines, assignments (raw :: lines) = assignments [raw] ++ assignments lines.
Proof.
  intros raw lines. simpl. destruct (env_line raw) as [[key value]|]; [|reflexivity].
  destruct (String.eqb key ""); reflexivity.
Qed.

Lemma load_line_get :
  forall env raw env',
    load_line env raw = Ok env' ->
    forall k,
      dict_get env' k =
      match dict_get env k with Some v => Some v | None => dict_get (assignments [raw]) k end.
Proof.
  intros env raw env' H k. unfold load_line in H. simpl.
  destruct (env_line raw) as [[key value]|].
  - destruct (String.eqb key "") eqn:Hk; simpl in H.
    + injection H as <-. destruct (dict_get env k); reflexivity.
    + unfold dict_mem in H. destruct (dict_get env key) as [old|] eqn:Hold; simpl in H.
      * injection H as <-. simpl.
        destruct (String.eqb key k) eqn:Hkk.
        -- apply String.eqb_eq in Hkk. subst k. rewrite Hold. reflexivity.
        -- destruct (dict_get env k); reflexivity.
      * destruct (has_nul key || has_nul value); [discriminate|]. injection H as <-.
        simpl. destruct (String.eqb key k) eqn:Hkk.
        -- apply String.eqb_eq in Hkk. subst k.
           rewrite OrchestratorSpec.dict_get_set_same, Hold. reflexivity.
        -- apply String.eqb_neq in Hkk.
           rewrite OrchestratorSpec.dict_get_set_other by congruence.
           destruct (dict_get env k); reflexivity.
  - injection H as <-. destruct (dict_get env k); reflexivity.
Qed.

Lemma load_lines_get :
  forall lines env env',
    load_lines env lines = Ok env' ->
    forall k,
      dict_get env' k =
      match dict_get env k with Some v => Some v | None => dict_get (assignments lines) k end.
Proof.
  induction lines as [|raw lines IH]; intros env env' H k.
  - simpl in H. injection H as <-. simpl. destruct (dict_get env k); reflexivity.
  - cbn [load_lines] in H.
    destruct (load_line env raw) as [env1|e] eqn:H1; [|discriminate]. cbn [bind] in H.
    rewrite (IH _ _ H k), (load_line_get _ _ H1 k), (assignments_cons raw lines),
      dict_get_app.
    destruct (dict_get env k); [reflexivity|].
    destruct (dict_get (assignments [raw]) k); reflexivity.
Qed.

(** X14: after a file is loaded, a variable has the value it had before
    if it was set, and otherwise the value of the first line of the file
    that assigns it; a variable the file does not assign stays unset.  A
    path that does not exist changes nothing. *)
Theorem environment_after_load :
  forall file env env',
    load_env_file file env = Ok env' ->
    forall k,
      dict_get env' k =
      match dict_get env k with
      | Some v => Some v
      | None =>
          match file with
          | FileLines lines => dict_get (assignments lines) k
          | NoFile | ReadFails _ => None
          end
      end.
Proof.
  intros [|e|lines] env env' H k; simpl in H.
  - injection H as <-. destruct (dict_get env k); reflexivity.
  - discriminate.
  - apply load_lines_get. exact H.
Qed.

Lemma environment_after_load_witness :
  dict_get [("OPENAI_API_KEY", "sk-shell"); ("MODEL", "gpt-4o-mini")] "MODEL" =
  match dict_get [("OPENAI_API_KEY", "sk-shell")] "MODEL" with
  | Some v => Some v
  | None =>
      dict_get (assignments ["# keys"; "OPENAI_API_KEY=sk-file"; "MODEL = 'gpt-4o-mini'";
                             "MODEL=other"]) "MODEL"
  end.
Proof.
  refine (@environment_after_load
            (FileLines ["# keys"; "OPENAI_API_KEY=sk-file"; "MODEL = 'gpt-4o-mini'";
                        "MODEL=other"])
            [("OPENAI_API_KEY", "sk-shell")] _ _ "MODEL").
  vm_compute. reflexivity.
Defined.

Lemma dict_get_keys :
  forall (V : Type) (d : dict V) k v, In (k, v) d -> dict_get d k <> None.
Proof.
  intros V d k v; induction d as [|[k' v'] d IH]; simpl; [contradiction|].
  intros [H|H].
  - injection H as -> ->. rewrite String.eqb_refl. discriminate.
  - destruct (String.eqb k' k); [discriminate|auto].
Qed.

Lemma load_lines_noop :
  forall lines env,
    (forall key value, In (key, value) (assignments lines) -> dict_mem env key = true) ->
    load_lines env lines = Ok env.
Proof.
  induction lines as [|raw lines IH]; intros env Hall; [reflexivity|].
  cbn [load_lines]. rewrite (assignments_cons raw lines) in Hall.
  assert (load_line env raw = Ok env) as ->.
  { unfold load_line. simpl in Hall.
    destruct (env_line raw) as [[key value]|]; [|reflexivity].
    destruct (String.eqb key "") eqn:Hk; [reflexivity|].
    rewrite (Hall key value) by (left; reflexivity). reflexivity. }
  cbn [bind]. apply IH. intros key value Hin. apply (Hall key value).
  apply in_or_app. right. exact Hin.
Qed.

(** X15: loading the same file a second time changes nothing. *)
Theorem load_env_file_idempotent :
  forall file env env',
    load_env_file file env = Ok env' -> load_env_file file env' = Ok env'.
Proof.
  intros [|e|lines] env env' H; simpl in *; [reflexivity|discriminate|].
  apply load_lines_noop. intros key value Hin.
  unfold dict_mem. rewrite (load_lines_get _ _ H key).
  destruct (dict_get env key); [reflexivity|].
  destruct (dict_get (assignments lines) key) eqn:E; [reflexivity|].
  exfalso. exact (dict_get_keys _ _ _ Hin E).
Qed.

Lemma load_env_file_idempotent_witness :
  load_env_file (FileLines ["A=1"; "B='two'"; "A=3"]) [("A", "1"); ("B", "two")] =
  Ok [("A", "1"); ("B", "two")].
Proof.
  refine (@load_env_file_idempotent (FileLines ["A=1"; "B='two'"; "A=3"]) [] _ _).
  vm_compute. reflexivity.
Defined.

(** ** Stripping and splitting *)

Lemma lstrip_of_head :
  forall f t c t', lstrip_of f t = c :: t' -> f c = false.
Proof.
  intros f t; induction t as [|x t IH]; intros c t' H; simpl in H; [discriminate|].
  destruct (f x) eqn:Hx; [eauto|]. injection H as <- _. exact Hx.
Qed.

Lemma lstrip_of_suffix :
  forall f t, exists pre, t = pre ++ lstrip_of f t.
Proof.
  intros f t; induction t as [|x t [pre IH]]; simpl.
  - exists []. reflexivity.
  - destruct (f x).
    + exists (x :: pre). simpl. rewrite <- IH. reflexivity.
    + exists []. reflexivity.
Qed.

Lemma strip_list_clean : forall f t, clean_ends f (strip_list f t).
Proof.
  intros f t. unfold strip_list. split.
  - intros c t' H. apply (f_equal (@rev ascii)) in H. rewrite rev_involutive in H.
    simpl in H.
    destruct (lstrip_of_suffix f (rev (lstrip_of f t))) as [pre Hpre].
    rewrite H in Hpre. apply (f_equal (@rev ascii)) in Hpre.
    rewrite rev_involutive, !rev_app_distr in Hpre. simpl in Hpre.
    eapply lstrip_of_head. exact Hpre.
  - intros c t' H. apply (f_equal (@rev ascii)) in H. rewrite rev_involutive in H.
    rewrite rev_app_distr in H. simpl in H.
    eapply lstrip_of_head. exact H.
Qed.

Lemma lstrip_of_In : forall f t c, In c (lstrip_of f t) -> In c t.
Proof.
  intros f t c H. destruct (lstrip_of_suffix f t) as [pre Hpre].
  rewrite Hpre. apply in_or_app. right. exact H.
Qed.

Lemma strip_list_In : forall f t c, In c (strip_list f t) -> In c t.
Proof.
  intros f t c H. unfold strip_list in H.
  apply in_rev in H. apply lstrip_of_In in H. apply in_rev in H.
  apply lstrip_of_In in H. exact H.
Qed.

Lemma split_eq_parts :
  forall t k v,
    split_eq t = Some (k, v) -> t = k ++ equals_sign :: v /\ ~ In equals_sign k.
Proof.
  induction t as [|c t IH]; intros k v H; simpl in H; [discriminate|].
  destruct (Ascii.eqb c equals_sign) eqn:Hc.
  - injection H as <- <-. apply Ascii.eqb_eq in Hc. subst c. split; auto.
  - destruct (split_eq t) as [[k' v']|]; [|discriminate]. injection H as <- <-.
    destruct (IH _ _ eq_refl) as [-> Hn]. split; [reflexivity|].
    intros [Heq|Hin]; [|auto]. subst c. rewrite Ascii.eqb_refl in Hc. discriminate.
Qed.

(** What a line yields is made of characters of the line; the key has
    no ["="] and no blank at either end, the value no double quote at
    either end. *)
Lemma env_line_shape :
  forall raw key value,
    env_line raw = Some (key, value) ->
    ~ In equals_sign (list_ascii_of_string key) /\
    clean_ends Chars.is_space (list_ascii_of_string key) /\
    clean_ends (Ascii.eqb double_quote) (list_ascii_of_string value) /\
    (forall c, In c (list_ascii_of_string key) -> In c (list_ascii_of_string raw)) /\
    (forall c, In c (list_ascii_of_string value) -> In c (list_ascii_of_string raw)).
Proof.
  intros raw key value H. unfold env_line in H.
  set (line := strip_list Chars.is_space (list_ascii_of_string raw)) in *.
  assert (forall c, In c line -> In c (list_ascii_of_string raw)) as Hline
    by (intros c; apply strip_list_In).
  destruct line as [|c0 line0] eqn:El; [discriminate|].
  destruct (Ascii.eqb c0 "#"); [discriminate|].
  destruct (split_eq (c0 :: line0)) as [[k v]|] eqn:Hs; [|discriminate].
  injection H as <- <-. rewrite !list_ascii_of_string_of_list_ascii.
  apply split_eq_parts in Hs. destruct Hs as [Hs Hn].
  repeat split.
  - intros Hin. apply Hn. eapply strip_list_In; eauto.
  - apply (proj1 (strip_list_clean _ _)).
  - apply (proj2 (strip_list_clean _ _)).
  - apply (proj1 (strip_list_clean _ _)).
  - apply (proj2 (strip_list_clean _ _)).
  - intros c Hc. apply Hline. rewrite Hs. apply in_or_app. left.
    eapply strip_list_In; eauto.
  - intros c Hc. apply Hline. rewrite Hs. apply in_or_app. right. right.
    repeat (apply strip_list_In in Hc). exact Hc.
Qed.

Definition wellformed (key value : string) : Prop :=
  key <> "" /\
  ~ In equals_sign (list_ascii_of_string key) /\
  clean_ends Chars.is_space (list_ascii_of_string key) /\
  clean_ends (Ascii.eqb double_quote) (list_ascii_of_string value) /\
  has_nul key = false /\ has_nul value = false.

Lemma load_line_new :
  forall env raw env' k v,
    load_line env raw = Ok env' ->
    dict_get env k = None -> dict_get env' k = Some v -> wellformed k v.
Proof.
  intros env raw env' k v H Hold Hnew. unfold load_line in H.
  destruct (env_line raw) as [[key value]|] eqn:Hl; [|injection H as <-; congruence].
  destruct (String.eqb key "") eqn:Hk; simpl in H; [injection H as <-; congruence|].
  destruct (dict_mem env key); simpl in H; [injection H as <-; congruence|].
  destruct (has_nul key || has_nul value) eqn:Hnul; [discriminate|]. injection H as <-.
  destruct (String.eqb key k) eqn:Hkk.
  - apply String.eqb_eq in Hkk. subst k.
    rewrite OrchestratorSpec.dict_get_set_same in Hnew. injection Hnew as <-.
    apply orb_false_iff in Hnul. apply String.eqb_neq in Hk.
    destruct (env_line_shape _ Hl) as (H1 & H2 & H3 & _). unfold wellformed. tauto.
  - apply String.eqb_neq in Hkk.
    rewrite OrchestratorSpec.dict_get_set_other in Hnew by congruence. congruence.
Qed.

(** X16: a variable that loading a file sets has a name that is not
    empty, holds no ["="] and has no blank at either end, and a value with
    no double quote at either end; neither holds a NUL character. *)
Theorem new_variables_wellformed :
  forall file env env' k v,
    load_env_file file env = Ok env' ->
    dict_get env k = None -> dict_get env' k = Some v ->
    wellformed k v.
Proof.
  intros [|e|lines] env env' k v H; simpl in H;
    [injection H as <-; congruence|discriminate|].
  revert env H. induction lines as [|raw lines IH]; intros env H Hold Hnew.
  - simpl in H. injection H as <-. congruence.
  - cbn [load_lines] in H.
    destruct (load_line env raw) as [env1|e] eqn:H1; [|discriminate]. cbn [bind] in H.
    destruct (dict_get env1 k) as [v1|] eqn:E1.
    + assert (v1 = v) as ->.
      { pose proof (load_lines_get _ _ H k) as Hg. rewrite E1, Hnew in Hg. congruence. }
      eapply load_line_new; eauto.
    + eapply IH; eauto.
Qed.

Lemma new_variables_wellformed_witness :
  wellformed "MODEL" "gpt-4o-mini".
Proof.
  refine (@new_variables_wellformed (FileLines ["  MODEL = 'gpt-4o-mini'  "]) []
            [("MODEL", "gpt-4o-mini")] "MODEL" "gpt-4o-mini" _ _ _);
    vm_compute; reflexivity.
Defined.

Lemma has_nul_subset :
  forall a b,
    (forall c, In c (list_ascii_of_string a) -> In c (list_ascii_of_string b)) ->
    has_nul b = false -> has_nul a = false.
Proof.
  intros a b Hsub Hb. unfold has_nul in *.
  destruct (existsb (Ascii.eqb Ascii.zero) (list_ascii_of_string a)) eqn:E; [|reflexivity].
  apply existsb_exists in E. destruct E as (c & Hc & Hz).
  assert (existsb (Ascii.eqb Ascii.zero) (list_ascii_of_string b) = true)
    by (apply existsb_exists; exists c; auto).
  congruence.
Qed.

(** X17: loading fails in two ways only.  When the file cannot be read,
    the exception of the read leaves the function as it is, whatever the
    environment.  When the file is read, the only failure is the
    [ValueError] of [os.environ], and only on a file with a NUL character
    in some line.  A path that does not exist, and a file that is read and
    has no NUL character, always load. *)
Theorem load_env_file_failure :
  forall file env,
    (forall e, file = ReadFails e -> load_env_file file env = Raise e) /\
    (forall e, load_env_file file env = Raise e ->
               file = ReadFails e \/
               (e = OtherError "ValueError" /\
                exists lines line,
                  file = FileLines lines /\ In line lines /\ has_nul line = true)) /\
    ((forall e, file <> ReadFails e) ->
     (forall lines, file = FileLines lines ->
                    Forall (fun line => has_nul line = false) lines) ->
     exists env', load_env_file file env = Ok env').
Proof.
  intros file env.
  assert (forall lines env0 e,
            load_lines env0 lines = Raise e ->
            e = OtherError "ValueError" /\
            exists line, In line lines /\ has_nul line = true) as Hfail.
  { induction lines as [|raw lines IH]; intros env0 e H; [discriminate|].
    cbn [load_lines] in H. destruct (load_line env0 raw) as [env1|e1] eqn:H1.
    - cbn [bind] in H. destruct (IH _ _ H) as (-> & line & Hin & Hn).
      split; [reflexivity|]. exists line. split; [right; exact Hin|exact Hn].
    - cbn [bind] in H. injection H as <-. unfold load_line in H1.
      destruct (env_line raw) as [[key value]|] eqn:Hl; [|discriminate].
      destruct (negb (String.eqb key "") && negb (dict_mem env0 key)); [|discriminate].
      destruct (has_nul key || has_nul value) eqn:Hnul; [|discriminate].
      injection H1 as <-. split; [reflexivity|]. exists raw. split; [left; reflexivity|].
      destruct (env_line_shape _ Hl) as (_ & _ & _ & Hk & Hv).
      destruct (has_nul raw) eqn:Hr; [reflexivity|].
      rewrite (has_nul_subset _ _ Hk Hr), (has_nul_subset _ _ Hv Hr) in Hnul.
      discriminate. }
  split; [|split].
  - intros e ->. reflexivity.
  - intros e H. destruct file as [|e0|lines]; simpl in H.
    + discriminate.
    + injection H as <-. left. reflexivity.
    + right. destruct (Hfail _ _ _ H) as (He & line & Hin & Hn). split; [exact He|].
      exists lines, line. auto.
  - intros Hread Hclean. destruct file as [|e0|lines]; simpl.
    + eauto.
    + exfalso. exact (Hread e0 eq_refl).
    + destruct (load_lines env lines) as [env'|e] eqn:H; [eauto|].
      destruct (Hfail _ _ _ H) as (_ & line & Hin & Hn).
      specialize (Hclean lines eq_refl). rewrite Forall_forall in Hclean.
      rewrite (Hclean _ Hin) in Hn. discriminate.
Qed.

Lemma load_env_file_failure_witness :
  load_env_file (ReadFails (OtherError "UnicodeDecodeError")) [("A", "1")] =
    Raise (OtherError "UnicodeDecodeError") /\
  exists env', load_env_file (FileLines ["A=1"; "# note"; "B = two"]) [] = Ok env'.
Proof.
  split.
  - refine (proj1 (load_env_file_failure (ReadFails (OtherError "UnicodeDecodeError"))
                     [("A", "1")]) _ eq_refl).
  - refine (proj2 (proj2 (load_env_file_failure
                            (FileLines ["A=1"; "# note"; "B = two"]) [])) _ _).
    + intros e H. discriminate.
    + intros lines H. injection H as <-. repeat constructor.
Defined.

End EnvSpec.

(* ================================================================== *)
(** * The exports: [build_txt_export] and [build_csv_export] *)

Module Exports.
Import Py Data Client Orchestrator.

(** The members of a list when all of them are strings. *)
Fixpoint all_strings (items : list pyval) : result (list string) :=
  match items with
  | [] => Ok []
  | PStr s :: items' => bind (all_strings items') (fun ss => Ok (s :: ss))
  | _ :: _ => Raise TypeError
  end.

(** [sep.join(v)] for a value [v] read from a variant: a list must hold
    strings only, a string is joined character by character, a dict by its
    keys; nothing else can be iterated. *)
Definition join_iterable (sep : string) (v : pyval) : result string :=
  match v with
  | PList items => bind (all_strings items) (fun ss => Ok (join sep ss))
  | PStr s => Ok (join sep (map (fun c => String c EmptyString) (list_ascii_of_string s)))
  | PDict d => Ok (join sep (keys d))
  | _ => Raise TypeError
  end.

(** [s * n]. *)
Fixpoint str_repeat (s : string) (n : nat) : string :=
  match n with
  | O => ""
  | S n' => s +++ str_repeat s n'
  end.

Definition fieldnames : list string :=
  ["channel"; "label"; "headline"; "body"; "cta"; "hashtags"; "complianceNotes";
   "complianceScore"].

Section WithRuntime.
Variable rt : runtime.

(** [v.get(key, '')] inside an f-string. *)
Definition field (d : dict pyval) (key : string) : string :=
  py_str rt (dict_get_default d key (PStr "")).

(** The seven lines of one variant; only a dict has [get]. *)
Definition variant_lines (i : nat) (v : pyval) : result (list string) :=
  match v with
  | PDict d =>
      bind (join_iterable ", " (dict_get_default d "hashtags" (PList []))) (fun tags =>
      Ok [ "Variant " +++ str_of_nat i +++ ": " +++ field d "label";
           "Headline: " +++ field d "headline";
           "Body: " +++ field d "body";
           "CTA: " +++ field d "cta";
           "Hashtags: " +++ tags;
           "Compliance Notes: " +++ field d "complianceNotes";
           "" ])
  | _ => Raise AttributeError
  end.

(** [for i, v in enumerate(row["variants"], start=1)], from index [i]. *)
Fixpoint variants_lines (i : nat) (vs : list pyval) : result (list string) :=
  match vs with
  | [] => Ok []
  | v :: vs' =>
      bind (variant_lines i v) (fun ls =>
      bind (variants_lines (S i) vs') (fun rest => Ok (ls ++ rest)))
  end.

Definition row_lines (row : channel_result) : result (list string) :=
  bind (variants_lines 1 (variants row)) (fun ls =>
  Ok (["Channel: " +++ channel_name row; str_repeat "-" 60] ++ ls ++ [""])).

Fixpoint rows_lines (results : list channel_result) : result (list string) :=
  match results with
  | [] => Ok []
  | row :: results' =>
      bind (row_lines row) (fun ls =>
      bind (rows_lines results') (fun rest => Ok (ls ++ rest)))
  end.

(** The list [lines] of [build_txt_export]; [now] is
    [dt.datetime.now().isoformat(timespec='seconds')]. *)
Definition txt_lines (now : string) (p : product) (results : list channel_result)
  : result (list string) :=
  bind (rows_lines results) (fun ls =>
  Ok ([ "CPG MARKETING CONTENT EXPORT";
        "Generated At: " +++ now;
        "Product: " +++ p_name p +++ " (" +++ p_brand p +++ ")";
        "Category: " +++ p_category p;
        "" ] ++ ls)).

Definition build_txt_export (now : string) (p : product) (results : list channel_result)
  : result string :=
  bind (txt_lines now p results) (fun ls => Ok (join nl ls)).

(** The row dictionary of [writer.writerow], in the order of the
    [fieldnames]. *)
Definition csv_row (channel : string) (v : pyval) : result (list pyval) :=
  match v with
  | PDict d =>
      bind (join_iterable ", " (dict_get_default d "hashtags" (PList []))) (fun tags =>
      Ok [ PStr channel;
           dict_get_default d "label" (PStr "");
           dict_get_default d "headline" (PStr "");
           dict_get_default d "body" (PStr "");
           dict_get_default d "cta" (PStr "");
           PStr tags;
           dict_get_default d "complianceNotes" (PStr "");
           dict_get_default d "_compliance_score" (PStr "") ])
  | _ => Raise AttributeError
  end.

Fixpoint csv_variant_rows (channel : string) (vs : list pyval) : result (list (list pyval)) :=
  match vs with
  | [] => Ok []
  | v :: vs' =>
      bind (csv_row channel v) (fun row =>
      bind (csv_variant_rows channel vs') (fun rest => Ok (row :: rest)))
  end.

(** The rows written after the header. *)
Fixpoint csv_rows (results : list channel_result) : result (list (list pyval)) :=
  match results with
  | [] => Ok []
  | row :: results' =>
      bind (csv_variant_rows (channel_name row) (variants row)) (fun rows =>
      bind (csv_rows results') (fun rest => Ok (rows ++ rest)))
  end.

(** [csv_write] is the text the [csv] writer makes of a header and
    rows. *)
Definition build_csv_export (csv_write : list string -> list (list pyval) -> string)
    (results : list channel_result) : result string :=
  bind (csv_rows results) (fun rows => Ok (csv_write fieldnames rows)).

End WithRuntime.

(** A variant that both exports can print: an object whose [hashtags],
    when present, can be joined. *)
Definition exportable (v : pyval) : Prop :=
  exists d tags,
    v = PDict d /\
    join_iterable ", " (dict_get_default d "hashtags" (PList [])) = Ok tags.

Definition all_exportable (results : list channel_result) : Prop :=
  Forall (fun row => Forall exportable (variants row)) results.

(** The number of lines of the text export. *)
Fixpoint line_count (results : list channel_result) : nat :=
  match results with
  | [] => 0
  | row :: results' => 3 + 7 * List.length (variants row) + line_count results'
  end.

End Exports.

Module ExportsSpec.
Import Py Data Client Orchestrator Exports.

(** The stored results [stored] are the raw results [raw] with every
    variant enriched. *)
Definition enriched_from (rt : runtime) (category : string)
    (raw stored : list channel_result) : Prop :=
  Forall2 (fun r0 r =>
             channel_name r = channel_name r0 /\
             Forall2 (fun v v' => Orchestrator.enrich_variant rt category v = Ok v')
                     (variants r0) (variants r))
          raw stored.

(** The column [complianceScore] of a variant's row. *)
Definition score_column (v : pyval) : pyval :=
  match v with
  | PDict d => dict_get_default d "_compliance_score" (PStr "")
  | _ => PNone
  end.

Lemma variant_lines_enriched :
  forall rt category i v v',
    Orchestrator.enrich_variant rt category v = Ok v' ->
    variant_lines rt i v' = variant_lines rt i v.
Proof.
  intros rt category i v v' H. destruct v as [| | | |l|d]; try discriminate.
  simpl in H. injection H as <-.
  unfold variant_lines, field, dict_get_default.
  rewrite !OrchestratorSpec.dict_get_set_other by discriminate. reflexivity.
Qed.

Lemma variants_lines_enriched :
  forall rt category vs vs',
    Forall2 (fun v v' => Orchestrator.enrich_variant rt category v = Ok v') vs vs' ->
    forall i, variants_lines rt i vs' = variants_lines rt i vs.
Proof.
  intros rt category vs vs' H; induction H as [|v v' vs vs' Hv _ IH]; intros i;
    [reflexivity|].
  cbn [variants_lines]. rewrite (@variant_lines_enriched rt category i v v' Hv), IH.
  reflexivity.
Qed.

(** X18: the text export shows nothing of the compliance check: the
    export of the enriched results is the export of the raw ones. *)
Theorem txt_export_ignores_compliance :
  forall rt category now p raw stored,
    enriched_from rt category raw stored ->
    build_txt_export rt now p stored = build_txt_export rt now p raw.
Proof.
  intros rt category now p raw stored H. unfold build_txt_export, txt_lines.
  assert (rows_lines rt stored = rows_lines rt raw) as ->; [|reflexivity].
  induction H as [|r0 r raw stored [Hn Hv] _ IH]; [reflexivity|].
  cbn [rows_lines]. rewrite IH. unfold row_lines.
  rewrite (@variants_lines_enriched rt category _ _ Hv), Hn. reflexivity.
Qed.

Lemma txt_export_ignores_compliance_witness :
  build_txt_export OrchestratorSpec.demo_runtime "2026-01-01T00:00:00"
    OrchestratorSpec.serum
    [mkResult "sms" "SMS/WhatsApp"
       [PDict [ ("headline", PStr "This will cure it");
                ("_compliance_issues",
                 PList [PDict [ ("rule", PStr "No disease treatment claims");
                                ("severity", PStr "critical");
                                ("matches", PList [PStr "cure"]) ]]);
                ("_compliance_score", PStr "Needs Review") ]]] =
  build_txt_export OrchestratorSpec.demo_runtime "2026-01-01T00:00:00"
    OrchestratorSpec.serum
    [mkResult "sms" "SMS/WhatsApp" [PDict [("headline", PStr "This will cure it")]]].
Proof.
  apply (@txt_export_ignores_compliance _ "Skincare").
  constructor; [|constructor]. split; [reflexivity|].
  constructor; [|constructor]. vm_compute. reflexivity.
Defined.

Lemma variant_lines_ok :
  forall rt i v, (exists ls, variant_lines rt i v = Ok ls) <-> exportable v.
Proof.
  intros rt i v. unfold exportable. split.
  - intros (ls & H). destruct v as [| | | |l|d]; try discriminate.
    unfold variant_lines in H.
    destruct (join_iterable ", " (dict_get_default d "hashtags" (PList [])))
      as [tags|] eqn:Ht; [|discriminate].
    eauto.
  - intros (d & tags & -> & Ht). unfold variant_lines. rewrite Ht. simpl. eauto.
Qed.

Lemma csv_row_ok :
  forall channel v, (exists row, csv_row channel v = Ok row) <-> exportable v.
Proof.
  intros channel v. unfold exportable. split.
  - intros (row & H). destruct v as [| | | |l|d]; try discriminate.
    unfold csv_row in H.
    destruct (join_iterable ", " (dict_get_default d "hashtags" (PList [])))
      as [tags|] eqn:Ht; [|discriminate].
    eauto.
  - intros (d & tags & -> & Ht). unfold csv_row. rewrite Ht. simpl. eauto.
Qed.

Lemma variants_lines_ok :
  forall rt vs i, (exists ls, variants_lines rt i vs = Ok ls) <-> Forall exportable vs.
Proof.
  intros rt vs; induction vs as [|v vs IH]; intros i.
  - split; [constructor|]. intros _. exists []. reflexivity.
  - cbn [variants_lines]. split.
    + intros (ls & H).
      destruct (variant_lines rt i v) as [l1|] eqn:H1; [|discriminate]. cbn [bind] in H.
      destruct (variants_lines rt (S i) vs) as [l2|] eqn:H2; [|discriminate].
      constructor.
      * apply (variant_lines_ok rt i). eauto.
      * apply (IH (S i)). eauto.
    + intros H. inversion H as [|? ? Hv Hvs]; subst.
      apply (variant_lines_ok rt i) in Hv. destruct Hv as (l1 & ->).
      apply (IH (S i)) in Hvs. destruct Hvs as (l2 & ->). simpl. eauto.
Qed.

Lemma csv_variant_rows_ok :
  forall channel vs,
    (exists rows, csv_variant_rows channel vs = Ok rows) <-> Forall exportable vs.
Proof.
  intros channel vs; induction vs as [|v vs IH].
  - split; [constructor|]. intros _. exists []. reflexivity.
  - cbn [csv_variant_rows]. split.
    + intros (rows & H).
      destruct (csv_row channel v) as [r1|] eqn:H1; [|discriminate]. cbn [bind] in H.
      destruct (csv_variant_rows channel vs) as [r2|] eqn:H2; [|discriminate].
      constructor.
      * apply (csv_row_ok channel). eauto.
      * apply IH. eauto.
    + intros H. inversion H as [|? ? Hv Hvs]; subst.
      apply (csv_row_ok channel) in Hv. destruct Hv as (r1 & ->).
      apply IH in Hvs. destruct Hvs as (r2 & ->). simpl. eauto.
Qed.

(** X19: the two exports can be made of the same results: both succeed
    exactly when every variant is an object whose [hashtags], if it has
    any, can be joined; otherwise both raise. *)
Theorem exports_succeed_iff :
  forall rt now p csv_write results,
    ((exists text, build_txt_export rt now p results = Ok text) <-> all_exportable results) /\
    ((exists text, build_csv_export csv_write results = Ok text) <-> all_exportable results).
Proof.
  intros rt now p csv_write results. unfold all_exportable. split.
  - unfold build_txt_export, txt_lines.
    assert ((exists ls, rows_lines rt results = Ok ls) <->
            Forall (fun row => Forall exportable (variants row)) results) as Hrows.
    { induction results as [|row results IH].
      - split; [constructor|]. intros _. exists []. reflexivity.
      - cbn [rows_lines]. unfold row_lines. split.
        + intros (ls & H).
          destruct (variants_lines rt 1 (variants row)) as [l1|] eqn:H1; [|discriminate].
          cbn [bind] in H.
          destruct (rows_lines rt results) as [l2|] eqn:H2; [|discriminate].
          constructor.
          * apply (variants_lines_ok rt _ 1). eauto.
          * apply IH. eauto.
        + intros H. inversion H as [|? ? Hv Hvs]; subst.
          apply (variants_lines_ok rt _ 1) in Hv. destruct Hv as (l1 & ->).
          apply IH in Hvs. destruct Hvs as (l2 & ->). simpl. eauto. }
    rewrite <- Hrows. split.
    + intros (text & H). destruct (rows_lines rt results); [eauto|discriminate].
    + intros (ls & ->). simpl. eauto.
  - unfold build_csv_export.
    assert ((exists rows, csv_rows results = Ok rows) <->
            Forall (fun row => Forall exportable (variants row)) results) as Hrows.
    { induction results as [|row results IH].
      - split; [constructor|]. intros _. exists []. reflexivity.
      - cbn [csv_rows]. split.
        + intros (rows & H).
          destruct (csv_variant_rows (channel_name row) (variants row)) as [r1|] eqn:H1;
            [|discriminate].
          cbn [bind] in H.
          destruct (csv_rows results) as [r2|] eqn:H2; [|discriminate].
          constructor.
          * apply (csv_variant_rows_ok (channel_name row)). eauto.
          * apply IH. eauto.
        + intros H. inversion H as [|? ? Hv Hvs]; subst.
          apply (csv_variant_rows_ok (channel_name row)) in Hv. destruct Hv as (r1 & ->).
          apply IH in Hvs. destruct Hvs as (r2 & ->). simpl. eauto. }
    rewrite <- Hrows. split.
    + intros (text & H). destruct (csv_rows results); [eauto|discriminate].
    + intros (rows & ->). simpl. eauto.
Qed.

Lemma exports_succeed_iff_witness :
  exists text,
    build_txt_export OrchestratorSpec.demo_runtime "2026-01-01T00:00:00"
      OrchestratorSpec.serum
      [mkResult "instagram" "Instagram Post" [OrchestratorSpec.demo_variant]] = Ok text.
Proof.
  apply (proj2 (proj1 (exports_succeed_iff OrchestratorSpec.demo_runtime
                         "2026-01-01T00:00:00" OrchestratorSpec.serum
                         (fun _ _ => "")
                         [mkResult "instagram" "Instagram Post"
                            [OrchestratorSpec.demo_variant]]))).
  constructor; [|constructor]. constructor; [|constructor].
  eexists _, _. split; reflexivity.
Defined.

(** The copy of a row of the CSV: its headline, body and call to action,
    as the orchestrator puts them together. *)
Definition row_text (rt : runtime) (row : list pyval) : string :=
  py_str rt (nth 2 row PNone) +++ " " +++ py_str rt (nth 3 row PNone) +++ " "
  +++ py_str rt (nth 4 row PNone).

Definition row_consistent (rt : runtime) (category : string) (row : list pyval) : Prop :=
  List.length row = List.length fieldnames /\
  nth 7 row PNone =
  PStr (Evaluator.get_compliance_score
          (Evaluator.check_compliance rt (row_text rt row) category)).

Fixpoint total_variants (results : list channel_result) : nat :=
  match results with
  | [] => 0
  | row :: results' => List.length (variants row) + total_variants results'
  end.

Lemma csv_row_scored :
  forall rt category channel v row,
    OrchestratorMore.scored rt category v ->
    csv_row channel v = Ok row -> row_consistent rt category row.
Proof.
  intros rt category channel v row (d & -> & _ & Hs) H. unfold csv_row in H.
  destruct (join_iterable ", " (dict_get_default d "hashtags" (PList [])));
    [|discriminate].
  simpl in H. injection H as <-. split; [reflexivity|].
  unfold row_text. cbn [nth]. unfold dict_get_default at 1. rewrite Hs. reflexivity.
Qed.

Lemma csv_variant_rows_scored :
  forall rt category channel vs rows,
    Forall (OrchestratorMore.scored rt category) vs ->
    csv_variant_rows channel vs = Ok rows ->
    Forall (row_consistent rt category) rows /\ List.length rows = List.length vs.
Proof.
  intros rt category channel vs; induction vs as [|v vs IH]; intros rows Hs H.
  - simpl in H. injection H as <-. split; [constructor|reflexivity].
  - cbn [csv_variant_rows] in H. inversion Hs as [|? ? Hv Hvs]; subst.
    destruct (csv_row channel v) as [row|] eqn:H1; [|discriminate]. cbn [bind] in H.
    destruct (csv_variant_rows channel vs) as [rest|] eqn:H2; [|discriminate].
    simpl in H. injection H as <-. destruct (IH _ Hvs eq_refl) as [Hr Hl].
    split; [constructor; [eapply csv_row_scored; eauto|exact Hr]|simpl; congruence].
Qed.

(** X20: the CSV of a run that completed has one row per stored variant,
    each with the eight columns of the header, and the [complianceScore]
    of a row is the verdict of the headline, body and call to action of
    that same row in the product's category. *)
Theorem csv_rows_of_completed_run :
  forall rt p labels tone season num_variants custom_prompt model pg pg' rows,
    main_generate rt p labels tone season num_variants custom_prompt model pg = Ok pg' ->
    completed pg' ->
    csv_rows (session_results pg') = Ok rows ->
    List.length rows = total_variants (session_results pg') /\
    Forall (row_consistent rt (p_category p)) rows.
Proof.
  intros rt p labels tone season num_variants custom_prompt model pg pg' rows Hrun Hdone.
  pose proof (OrchestratorMore.completed_run_scored _ _ _ _ _ _ _ _ _ Hrun Hdone) as Hs.
  revert rows. induction Hs as [|r results Hr _ IH]; intros rows H.
  - simpl in H. injection H as <-. split; [reflexivity|constructor].
  - cbn [csv_rows] in H.
    destruct (csv_variant_rows (channel_name r) (variants r)) as [r1|] eqn:H1;
      [|discriminate].
    cbn [bind] in H. destruct (csv_rows results) as [r2|] eqn:H2; [|discriminate].
    simpl in H. injection H as <-.
    destruct (csv_variant_rows_scored _ Hr H1) as [Hc Hl].
    destruct (IH _ eq_refl) as [Hl2 Hc2].
    split; [rewrite length_app; simpl; congruence|apply Forall_app; auto].
Qed.

Lemma csv_rows_of_completed_run_witness :
  match main_generate OrchestratorSpec.demo_runtime OrchestratorSpec.serum
          ["Instagram Post"; "SMS/WhatsApp"] "Playful" "General" 2 "" "gpt-4o-mini"
          (OrchestratorSpec.demo_page "body:variants") with
  | Ok pg' =>
      match csv_rows (session_results pg') with
      | Ok rows =>
          List.length rows = total_variants (session_results pg') /\
          Forall (row_consistent OrchestratorSpec.demo_runtime "Skincare") rows
      | Raise _ => False
      end
  | Raise _ => False
  end.
Proof.
  destruct (main_generate OrchestratorSpec.demo_runtime OrchestratorSpec.serum
              ["Instagram Post"; "SMS/WhatsApp"] "Playful" "General" 2 "" "gpt-4o-mini"
              (OrchestratorSpec.demo_page "body:variants")) as [pg'|e] eqn:Hrun.
  - destruct (csv_rows (session_results pg')) as [rows|e] eqn:Hrows.
    + refine (@csv_rows_of_completed_run _ _ _ _ _ _ _ _ _ _ _ Hrun _ Hrows).
      vm_compute in Hrun. injection Hrun as <-. unfold completed. simpl shown.
      match goal with |- exists ui, ?l = _ => exists (removelast l) end. reflexivity.
    + vm_compute in Hrun. injection Hrun as <-. vm_compute in Hrows. discriminate.
  - vm_compute in Hrun. discriminate.
Defined.

End ExportsSpec.

(* ================================================================== *)
(** * Runs and replies: two more properties *)

Module RunsAndReplies.
Import Py Data Client Orchestrator.

Lemma known_channel :
  forall name,
    In name (map c_name CHANNELS) -> exists c, dict_get channel_options name = Some c.
Proof.
  intros name H. simpl in H.
  repeat (destruct H as [<-|H]; [eexists; vm_compute; reflexivity|]). contradiction.
Qed.

Lemma select_known_channels :
  forall labels,
    Forall (fun name => In name (map c_name CHANNELS)) labels ->
    exists selected, select_channels labels = Ok selected.
Proof.
  induction 1 as [|name labels Hn _ [selected IH]]; [exists []; reflexivity|].
  destruct (known_channel Hn) as [c Hc]. cbn [select_channels].
  rewrite Hc, IH. simpl. eauto.
Qed.

(** X21: with labels taken from the channel list, as the page offers
    them, a run never raises: whatever the service answers and whatever
    the reply holds, the outcome is a page. *)
Theorem run_never_raises :
  forall rt p labels tone season num_variants custom_prompt model pg,
    Forall (fun name => In name (map c_name CHANNELS)) labels ->
    exists pg',
      main_generate rt p labels tone season num_variants custom_prompt model pg = Ok pg'.
Proof.
  intros rt p labels tone season num_variants custom_prompt model pg Hl.
  unfold main_generate. destruct labels as [|l labels]; [eauto|].
  destruct (select_known_channels Hl) as [selected ->].
  destruct (channel_loop rt p tone season num_variants custom_prompt model
              (List.length selected) selected 1 [] (shown pg ++ [ProgressBar])
              (the_world pg)) as [[[rs|err] ui] w]; eauto.
Qed.

Lemma run_never_raises_witness :
  exists pg',
    main_generate OrchestratorSpec.demo_runtime OrchestratorSpec.unbranded
      ["Print Ad"; "TV/Video Script"] "Playful" "General" 2 "" "gpt-4o-mini"
      (OrchestratorSpec.demo_page "not json") = Ok pg'.
Proof.
  apply run_never_raises. repeat constructor; simpl; tauto.
Defined.

(** ** Fences *)

Definition backtick : ascii := "`"%char.

Definition no_backtick (s : string) : Prop := ~ In backtick (list_ascii_of_string s).

(** A pattern without [\b] and without a group. *)
Fixpoint plain (r : Re.regex) : bool :=
  match r with
  | Re.WordB | Re.Group _ => false
  | Re.Opt a => plain a
  | Re.Seq a b | Re.Alt a b => plain a && plain b
  | _ => true
  end.

Lemma rmatch_ext :
  forall t r i cap k1 k2,
    (forall j c, k1 j c = k2 j c) ->
    Re.rmatch r t i cap k1 = Re.rmatch r t i cap k2.
Proof.
  intros t r; induction r as [| ic c | ic cs | a IHa | a IHa b IHb | a IHa b IHb | | a IHa];
    simpl; intros i cap k1 k2 Hk; auto.
  - destruct (nth_error t i); auto. destruct (Re.char_eqb ic a c); auto.
  - destruct (nth_error t i); auto. destruct (existsb _ cs); auto.
  - rewrite (IHa i cap k1 k2 Hk), Hk. reflexivity.
  - rewrite (IHa i cap k1 k2 Hk), (IHb i cap k1 k2 Hk). reflexivity.
  - rewrite Hk. reflexivity.
Qed.

(** A plain pattern does not see what comes before the position it
    starts at. *)
Lemma rmatch_shift :
  forall pre t r, plain r = true ->
    forall i cap k,
      Re.rmatch r (pre ++ t) (List.length pre + i) cap k =
      Re.rmatch r t i cap (fun j c => k (List.length pre + j) c).
Proof.
  intros pre t r; induction r as [| ic c | ic cs | a IHa | a IHa b IHb | a IHa b IHb | | a IHa];
    simpl; intros Hp i cap k; try discriminate; auto.
  - rewrite nth_error_app2 by lia.
    replace (List.length pre + i - List.length pre) with i by lia.
    destruct (nth_error t i); auto. rewrite Nat.add_succ_r. reflexivity.
  - rewrite nth_error_app2 by lia.
    replace (List.length pre + i - List.length pre) with i by lia.
    destruct (nth_error t i); auto. rewrite Nat.add_succ_r. reflexivity.
  - rewrite (IHa Hp). reflexivity.
  - apply andb_true_iff in Hp. destruct Hp as [Ha Hb].
    rewrite (IHa Ha). apply rmatch_ext. intros j c. apply (IHb Hb).
  - apply andb_true_iff in Hp. destruct Hp as [Ha Hb].
    rewrite (IHa Ha), (IHb Hb). reflexivity.
Qed.

Lemma match_at_not_fence :
  forall t s adv,
    (forall x, nth_error t s = Some x -> x <> backtick) ->
    Re.match_at fence_re t s adv = None.
Proof.
  intros t s adv H. unfold Re.match_at, fence_re. simpl.
  destruct (nth_error t s) as [x|]; [|reflexivity].
  assert (Ascii.eqb x "`" = false) as -> by (apply Ascii.eqb_neq, H; reflexivity).
  reflexivity.
Qed.

Lemma search_here :
  forall r t n pos adv res,
    Re.match_at r t pos adv = Some res -> Re.search r t n pos adv = Some (pos, res).
Proof. intros r t [|n] pos adv res H; simpl; rewrite H; reflexivity. Qed.

(** The search passes over positions that hold no backtick. *)
Lemma search_skip :
  forall t k n pos adv,
    (forall i x, pos <= i < pos + k -> nth_error t i = Some x -> x <> backtick) ->
    k <= n -> 0 < k ->
    Re.search fence_re t n pos adv = Re.search fence_re t (n - k) (pos + k) false.
Proof.
  intros t k; induction k as [|k IH]; intros n pos adv Hno Hk Hpos; [lia|].
  destruct n as [|n]; [lia|]. simpl Re.search at 1.
  rewrite match_at_not_fence by (intros x Hx; apply (Hno pos x); [lia|exact Hx]).
  destruct k as [|k].
  - replace (S n - 1) with n by lia. replace (pos + 1) with (S pos) by lia. reflexivity.
  - rewrite (IH n (S pos) false); try lia.
    + replace (S pos + S k) with (pos + S (S k)) by lia. reflexivity.
    + intros i x Hi. apply Hno. lia.
Qed.

Lemma search_none :
  forall t n pos adv,
    (forall i x, pos <= i <= pos + n -> nth_error t i = Some x -> x <> backtick) ->
    Re.search fence_re t n pos adv = None.
Proof.
  intros t n; induction n as [|n IH]; intros pos adv Hno; simpl;
    rewrite match_at_not_fence by (intros x Hx; apply (Hno pos x); [lia|exact Hx]).
  - reflexivity.
  - apply IH. intros i x Hi. apply Hno. lia.
Qed.

Lemma finditer_from_step :
  forall r t fuel pos adv,
    Re.finditer_from r t (S fuel) pos adv =
    if List.length t <? pos then []
    else match Re.search r t (List.length t - pos) pos adv with
         | None => []
         | Some (s, (e, cap)) => (s, (e, cap)) :: Re.finditer_from r t fuel e (e =? s)
         end.
Proof. reflexivity. Qed.

Lemma list_ascii_of_string_app :
  forall a b, list_ascii_of_string (a +++ b) = list_ascii_of_string a ++ list_ascii_of_string b.
Proof. induction a as [|c a IH]; intros b; simpl; [reflexivity|]. rewrite IH. reflexivity. Qed.

Lemma finditer_no_fence :
  forall t, ~ In backtick t -> Re.finditer fence_re t = [].
Proof.
  intros t Hno. unfold Re.finditer.
  replace (2 * List.length t + 3) with (S (2 * List.length t + 2)) by lia.
  rewrite finditer_from_step. simpl (_ <? 0).
  rewrite search_none; [reflexivity|].
  intros i x _ Hx Hb. subst x. apply Hno. eapply nth_error_In. exact Hx.
Qed.

Lemma finditer_fenced :
  forall x,
    ~ In backtick x ->
    Re.finditer fence_re (list_ascii_of_string "```json" ++ x ++ list_ascii_of_string "```")
    = [(0, (7, None)); (7 + List.length x, (10 + List.length x, None))].
Proof.
  intros x Hno.
  set (t := list_ascii_of_string "```json" ++ x ++ list_ascii_of_string "```").
  assert (List.length t = 10 + List.length x) as Hlen
    by (unfold t; rewrite !length_app; simpl; lia).
  unfold Re.finditer.
  replace (2 * List.length t + 3) with (S (S (S (2 * List.length t)))) by lia.
  (* the opening fence *)
  rewrite finditer_from_step. simpl (_ <? 0).
  rewrite (search_here fence_re t _ 0 false (res := (7, None))) by reflexivity.
  simpl (7 =? 0).
  (* the text, then the closing fence *)
  rewrite finditer_from_step.
  assert ((List.length t <? 7) = false) as -> by (apply Nat.ltb_ge; lia).
  assert (Re.search fence_re t (List.length t - 7) 7 false =
          Some (7 + List.length x, (10 + List.length x, None))) as ->.
  { assert (Re.match_at fence_re t (7 + List.length x) false
            = Some (10 + List.length x, None)) as Hm.
    { unfold Re.match_at, t. rewrite app_assoc.
      replace (7 + List.length x)
        with (List.length (list_ascii_of_string "```json" ++ x) + 0)
        by (rewrite length_app; simpl; lia).
      rewrite rmatch_shift by reflexivity. simpl.
      unfold Re.accept. simpl. f_equal. f_equal. lia. }
    destruct (Nat.eq_dec (List.length x) 0) as [Hz|Hnz].
    - apply length_zero_iff_nil in Hz. subst x. reflexivity.
    - rewrite (search_skip t (k := List.length x)).
      + apply search_here. exact Hm.
      + intros i y Hi Hy Hb. subst y. apply Hno. unfold t in Hy.
        rewrite nth_error_app2 in Hy by (simpl; lia).
        rewrite nth_error_app1 in Hy by (simpl; lia).
        eapply nth_error_In. exact Hy.
      + lia.
      + lia. }
  assert ((10 + List.length x =? 7 + List.length x) = false) as ->
    by (apply Nat.eqb_neq; lia).
  (* the end of the text *)
  rewrite finditer_from_step. rewrite Hlen.
  assert ((10 + List.length x <? 10 + List.length x) = false) as ->
    by (apply Nat.ltb_irrefl).
  rewrite Nat.sub_diag, search_none; [reflexivity|].
  intros i y Hi Hy. exfalso.
  assert (i < List.length t) by (apply nth_error_Some; congruence). lia.
Qed.

(** X22: a reply without a backtick is only stripped of the blanks around
    it, and the same reply wrapped in a [```json] ... [```] fence is read
    as the bare one: the fence makes no difference to the variants. *)
Theorem fenced_reply_unwrapped :
  forall rt content,
    no_backtick content ->
    strip_json_fence content = strip content /\
    strip_json_fence ("```json" +++ content +++ "```") = strip content /\
    parse_variants rt ("```json" +++ content +++ "```") = parse_variants rt content.
Proof.
  intros rt content Hno. unfold no_backtick in Hno.
  assert (strip_json_fence content = strip content) as E1.
  { unfold strip_json_fence, sub_empty. rewrite (@finditer_no_fence _ Hno). simpl.
    rewrite string_of_list_ascii_of_string. reflexivity. }
  assert (strip_json_fence ("```json" +++ content +++ "```") = strip content) as E2.
  { unfold strip_json_fence, sub_empty. rewrite !list_ascii_of_string_app.
    rewrite (@finditer_fenced _ Hno). cbn [between_matches].
    replace (7 + List.length (list_ascii_of_string content) - 7)
      with (List.length (list_ascii_of_string content)) by lia.
    simpl (firstn (0 - 0) _). simpl (skipn 7 _).
    rewrite firstn_app, Nat.sub_diag, firstn_all. simpl (firstn 0 _).
    rewrite skipn_all2 by (rewrite !length_app; simpl; lia).
    rewrite !app_nil_r. simpl. rewrite string_of_list_ascii_of_string. reflexivity. }
  split; [exact E1|]. split; [exact E2|].
  unfold parse_variants. rewrite E1, E2. reflexivity.
Qed.

Lemma fenced_reply_unwrapped_witness :
  strip_json_fence ("```json" +++ " {} " +++ "```") = strip " {} ".
Proof.
  refine (proj1 (proj2 (@fenced_reply_unwrapped OrchestratorSpec.demo_runtime " {} " _))).
  unfold no_backtick. simpl. intros [H|[H|[H|[H|[]]]]]; discriminate.
Defined.

End RunsAndReplies.
